(** * concurr.py: the Property24 listing scraper

    A shallow embedding of [src/concurr.py] and the properties of its
    de-duplication, batching, cleaning and extraction code.

    Python values are modelled as follows.
    - [str] is a list of Unicode code points ([list N]); ASCII literals are
      written [str "..."], other characters by their code point.
    - [set] is a [gset], [dict] a [gmap] keyed by [str].
    - module level globals live in one record, threaded through a small
      state-and-exception monad.
    - the network, the HTML parser and the Unicode tables of the interpreter
      are collaborators: they are parameters of the development. *)

From Stdlib Require Import NArith ZArith Lia.
From Stdlib Require Strings.String Strings.Ascii Init.Decimal Numbers.DecimalNat.
From stdpp Require Import base list gmap sets.
Import Stdlib.Strings.String.StringSyntax.

Set Default Proof Using "Type".

(* ================================================================== *)
(** * Part I: the program *)
(* ================================================================== *)

(** ** Python strings *)

Abbreviation pystr := (list N).

(** An ASCII literal as a Python string. *)
Definition str (s : String.string) : pystr :=
  (λ a, Ascii.N_of_ascii a) <$> String.list_ascii_of_string s.
Arguments str s%_string_scope.

(** The parts of the interpreter's Unicode database the program consults
    outside ASCII.  On ASCII the answers are fixed below; beyond it they are
    read from these tables, about which nothing is assumed. *)
Class UnicodeTables := {
  (** general category Nd, used by the pattern [\d] *)
  unicode_decimal : N → bool;
  (** simple lower-case mapping, used by [re.IGNORECASE] *)
  unicode_tolower : N → N;
  (** per-character test behind [str.isdigit] *)
  unicode_digit : N → bool
}.

Definition is_ascii (c : N) : bool := (c <? 128)%N.
Definition ascii_digit (c : N) : bool := (48 <=? c)%N && (c <=? 57)%N.
Definition ascii_upper (c : N) : bool := (65 <=? c)%N && (c <=? 90)%N.
Definition ascii_lower (c : N) : bool := (97 <=? c)%N && (c <=? 122)%N.

(** [str.isspace] on one character: the interpreter's white-space table. *)
Definition isspace (c : N) : bool :=
  ((0x09 <=? c)%N && (c <=? 0x0D)%N) || ((0x1C <=? c)%N && (c <=? 0x20)%N)
  || (c =? 0x85)%N || (c =? 0xA0)%N || (c =? 0x1680)%N
  || ((0x2000 <=? c)%N && (c <=? 0x200A)%N)
  || (c =? 0x2028)%N || (c =? 0x2029)%N || (c =? 0x202F)%N
  || (c =? 0x205F)%N || (c =? 0x3000)%N.

Fixpoint lstrip (s : pystr) : pystr :=
  match s with
  | c :: s' => if isspace c then lstrip s' else s
  | [] => []
  end.

Definition rstrip (s : pystr) : pystr := reverse (lstrip (reverse s)).

(** [s.strip()] *)
Definition strip (s : pystr) : pystr := rstrip (lstrip s).

(** [sub in s] for a one-character [sub]. *)
Definition contains (c : N) (s : pystr) : bool := bool_decide (c ∈ s).

(** [s.split(sep, 1)] for a one-character [sep] that occurs in [s]: the text
    before the first occurrence and the text after it.  When [sep] does not
    occur the first component is all of [s]; it is also [s.split(sep)[0]]. *)
Fixpoint split_first (sep : N) (s : pystr) : pystr * pystr :=
  match s with
  | [] => ([], [])
  | c :: s' =>
      if bool_decide (c = sep) then ([], s')
      else let '(l, r) := split_first sep s' in (c :: l, r)
  end.

(** [s.startswith(p)] *)
Fixpoint startswith (s p : pystr) : bool :=
  match p, s with
  | [], _ => true
  | a :: p', b :: s' => bool_decide (a = b) && startswith s' p'
  | _ :: _, [] => false
  end.

(** [s.replace(old, new)] for a non-empty [old]: occurrences are replaced
    from the left and do not overlap.  [skip] counts the characters of a
    replaced occurrence still to be dropped. *)
Fixpoint replace_from (old new : pystr) (skip : nat) (s : pystr) : pystr :=
  match s with
  | [] => []
  | c :: s' =>
      match skip with
      | S k => replace_from old new k s'
      | O =>
          if startswith s old
          then new ++ replace_from old new (length old - 1) s'
          else c :: replace_from old new 0 s'
      end
  end.

Definition replace (old new s : pystr) : pystr := replace_from old new 0 s.

(** [sep.join(parts)] *)
Fixpoint join (sep : pystr) (parts : list pystr) : pystr :=
  match parts with
  | [] => []
  | [p] => p
  | p :: ps => p ++ sep ++ join sep ps
  end.

(** [s.isdigit()]: non-empty and every character a digit. *)
Definition char_isdigit `{UnicodeTables} (c : N) : bool :=
  if is_ascii c then ascii_digit c else unicode_digit c.
Definition isdigit `{UnicodeTables} (s : pystr) : bool :=
  negb (bool_decide (s = [])) && forallb char_isdigit s.

(** [str(n)] for a non-negative integer. *)
Fixpoint uint_digits (d : Decimal.uint) : pystr :=
  match d with
  | Decimal.Nil => []
  | Decimal.D0 d => 48%N :: uint_digits d
  | Decimal.D1 d => 49%N :: uint_digits d
  | Decimal.D2 d => 50%N :: uint_digits d
  | Decimal.D3 d => 51%N :: uint_digits d
  | Decimal.D4 d => 52%N :: uint_digits d
  | Decimal.D5 d => 53%N :: uint_digits d
  | Decimal.D6 d => 54%N :: uint_digits d
  | Decimal.D7 d => 55%N :: uint_digits d
  | Decimal.D8 d => 56%N :: uint_digits d
  | Decimal.D9 d => 57%N :: uint_digits d
  end.
Definition str_of_nat (n : nat) : pystr := uint_digits (Nat.to_uint n).

(** ** The [re] module, as far as the program uses it *)

Module re.

(** Patterns.  Greedy and lazy repetition are kept apart as in the pattern
    text; they differ in the order alternatives are tried, not in whether a
    match exists. *)
Inductive pattern :=
| Lit (c : N)                 (* a literal character *)
| Dot                         (* [.] without DOTALL *)
| Digit                       (* [\d] *)
| Seq (p q : pattern)         (* [pq] *)
| Opt (p : pattern)           (* [p?] *)
| Star (p : pattern)          (* [p*] *)
| Plus (p : pattern)          (* [p+] *)
| PlusLazy (p : pattern)      (* [p+?] *)
| Bol                         (* [^] without MULTILINE *)
| Eol.                        (* [$] without MULTILINE *)

(** A sequence of literals. *)
Fixpoint Lits (s : pystr) : pattern :=
  match s with
  | [] => Opt Bol  (* never built: literals are non-empty *)
  | [c] => Lit c
  | c :: s' => Seq (Lit c) (Lits s')
  end.

Fixpoint Seqs (ps : list pattern) (last : pattern) : pattern :=
  match ps with
  | [] => last
  | p :: ps' => Seq p (Seqs ps' last)
  end.

Section Engine.
Context `{UnicodeTables}.

(** Lower-casing as the engine does it under IGNORECASE. *)
Definition tolower (c : N) : N :=
  if is_ascii c then (if ascii_upper c then c + 32 else c)%N
  else unicode_tolower c.

(** A literal of the pattern against a character of the subject, under
    IGNORECASE: characters without case compare exactly, cased ones by
    their lower-case form; [s] also matches U+017F, whose upper-case form
    is [S]. *)
Definition lit_matches (p c : N) : bool :=
  if ascii_upper p || ascii_lower p then
    bool_decide (tolower c = tolower p)
    || (bool_decide (tolower p = 115%N) && bool_decide (tolower c = 0x17F%N))
  else bool_decide (c = p).

Definition digit_matches (c : N) : bool :=
  if is_ascii c then ascii_digit c else unicode_decimal c.

Definition dot_matches (c : N) : bool := negb (bool_decide (c = 10%N)).

(** Backtracking matcher in continuation style: [run p at_start s k] tries
    [p] at the front of [s] and hands every possible rest to [k].
    [at_start] records whether [s] is the whole subject.  A repetition is
    tried at most [length s] times, which is every way of consuming
    characters. *)
Fixpoint run (p : pattern) (at_start : bool) (s : pystr)
         (k : bool → pystr → bool) {struct p} : bool :=
  match p with
  | Lit a =>
      match s with
      | c :: s' => if lit_matches a c then k false s' else false
      | [] => false
      end
  | Dot =>
      match s with
      | c :: s' => if dot_matches c then k false s' else false
      | [] => false
      end
  | Digit =>
      match s with
      | c :: s' => if digit_matches c then k false s' else false
      | [] => false
      end
  | Seq p q => run p at_start s (λ b s', run q b s' k)
  | Opt p => if run p at_start s k then true else k at_start s
  | Star p =>
      (fix loop (n : nat) (b : bool) (s : pystr) {struct n} : bool :=
         match n with
         | O => k b s
         | S n' =>
             if run p b s (λ b' s', loop n' b' s') then true else k b s
         end) (length s) at_start s
  | Plus p =>
      run p at_start s (λ b0 s0,
        (fix loop (n : nat) (b : bool) (s : pystr) {struct n} : bool :=
           match n with
           | O => k b s
           | S n' =>
               if run p b s (λ b' s', loop n' b' s') then true else k b s
           end) (length s0) b0 s0)
  | PlusLazy p =>
      run p at_start s (λ b0 s0,
        (fix loop (n : nat) (b : bool) (s : pystr) {struct n} : bool :=
           match n with
           | O => k b s
           | S n' =>
               if k b s then true else run p b s (λ b' s', loop n' b' s')
           end) (length s0) b0 s0)
  | Bol => if at_start then k at_start s else false
  | Eol =>
      if bool_decide (s = []) || bool_decide (s = [10%N])
      then k at_start s else false
  end.

(** [pattern.match(s)]: a match starting at the beginning of [s]; truthy
    when there is one. *)
Definition match_ (p : pattern) (s : pystr) : bool :=
  run p true s (λ _ _, true).

(** [re.sub(pattern, repl, text)] for a pattern that is one bracketed
    character class: every character of the class is a match of length
    one and is replaced by [repl]. *)
Fixpoint sub_class (class : list N) (repl text : pystr) : pystr :=
  match text with
  | [] => []
  | c :: t =>
      if bool_decide (c ∈ class) then repl ++ sub_class class repl t
      else c :: sub_class class repl t
  end.
End Engine.

End re.

(** ** Module level state *)

(** [PROPERTY24_REGEX], compiled with [re.IGNORECASE].  The pattern text is
    [^https://(www\.)?property24\.com/for-sale/] followed by
    [.+?/.+?/.+?/\d+/\d+/?], an optional group made of [\?] and [.*], and
    [$]. *)
Definition PROPERTY24_REGEX : re.pattern :=
  re.Seqs
    [ re.Bol; re.Lits (str "https://"); re.Opt (re.Lits (str "www."));
      re.Lits (str "property24.com/for-sale/");
      re.PlusLazy re.Dot; re.Lit 47; re.PlusLazy re.Dot; re.Lit 47;
      re.PlusLazy re.Dot; re.Lit 47;
      re.Plus re.Digit; re.Lit 47; re.Plus re.Digit; re.Opt (re.Lit 47);
      re.Opt (re.Seq (re.Lit 63) (re.Star re.Dot)) ]
    re.Eol.

(** ** Helper functions *)

(** The pattern [[\u00b2\u00b3\u00e9\u00b0\u00b1]]. *)
Definition superscript_class : list N := [0xb2; 0xb3; 0xe9; 0xb0; 0xb1]%N.

Definition remove_superscripts (text : pystr) : pystr :=
  re.sub_class superscript_class [] text.

Definition clean_description (desc : pystr) : pystr :=
  let half := length desc / 2 in
  if bool_decide (strip (take half desc) = strip (drop half desc))
  then strip (take half desc)
  else strip desc.

(** ** The parsed document *)

(** An element of the parsed page, as far as the program reads it: the
    strings below it in document order, and its attributes. *)
Record Tag := {
  tag_strings : list pystr;
  tag_attrs : gmap pystr pystr
}.

(** [tag.get_text(separator, strip=True)]: every string below the element is
    stripped, empty ones are dropped, the rest joined by the separator. *)
Definition get_text (separator : pystr) (t : Tag) : pystr :=
  join separator (filter (λ s, s ≠ []) (strip <$> tag_strings t)).

(** The queries the program sends to a [BeautifulSoup] document.  The
    parser answers them; the program never looks at the tree itself. *)
Record Soup := {
  (** [soup.find(class_=c)] *)
  find : pystr → option Tag;
  (** [soup.find_all(class_=c)] *)
  find_all : pystr → list Tag;
  (** [soup.select(css)] *)
  select : pystr → list Tag;
  (** [soup.select_one(css)] *)
  select_one : pystr → option Tag;
  (** [soup.find("div", class_=lambda c: c and sub in c)] *)
  find_div_class_containing : pystr → option Tag
}.

(** ** [extract_listing_data] *)

(** The values stored in a listing record. *)
Inductive pyval :=
| VStr (s : pystr)
| VList (l : list pystr)
| VNone.

#[global] Instance pyval_eq_dec : EqDecision pyval.
Proof. solve_decision. Defined.

Abbreviation record := (gmap pystr pyval).

Definition colon : N := 58.

Section Extraction.
Context `{UnicodeTables}.
Variable soup : Soup.

(* --- Price --- *)
Definition price_rule : pystr :=
  match find soup (str "p24_price") with
  | Some price_elem => get_text [] price_elem
  | None => str "None"
  end.

(* --- Size --- *)
Definition size_rule : pystr :=
  match find soup (str "p24_size") with
  | Some size_elem =>
      let size_text := get_text [] size_elem in
      remove_superscripts
        (if contains colon size_text
         then strip (fst (split_first colon size_text))
         else size_text)
  | None => str "None"
  end.

(* --- Description --- *)
Definition desc_elem : option Tag :=
  match find soup (str "js_readMoreText") with
  | Some e => Some e
  | None => find soup (str "js_readMoreContainer")
  end.

Definition description_rule : pystr :=
  match desc_elem with
  | Some e =>
      let raw_desc := replace (str " Read Less") [] (get_text (str " ") e) in
      remove_superscripts (clean_description raw_desc)
  | None => str "None Found"
  end.

(* --- Features --- *)
(** One turn of the loop over the feature elements, on the record and the
    list [features]. *)
Definition feature_step (st : record * list pystr) (item : Tag)
  : record * list pystr :=
  let text := get_text [] item in
  if contains colon text then
    let '(key, val) := split_first colon text in
    (<[strip key := VStr (strip val)]> st.1, st.2)
  else (st.1, st.2 ++ [text]).

Definition feature_loop (data : record) : record * list pystr :=
  foldl feature_step (data, []) (find_all soup (str "p24_listingFeatures")).

(* --- Address --- *)
Definition address_rule : pystr :=
  match find soup (str "p24_addressPropOverview") with
  | Some address_elem => get_text [] address_elem
  | None => str "None found"
  end.

(* --- Location (Province, City, Town) from Breadcrumbs --- *)
Definition crumb_stopwords : list pystr :=
  [str "|"; str ">"; str "Back to Results"; str "Property for Sale"].

Definition crumbs : list pystr :=
  filter (λ text, (text ∉ crumb_stopwords) ∧ (isdigit text = false))
    (get_text [] <$> select soup (str "#breadCrumbContainer li:not(:first-child)")).

(** [if len(crumbs) >= i + 1: data[key] = crumbs[i]] *)
Definition set_crumb (key : pystr) (i : nat) (data : record) : record :=
  match crumbs !! i with
  | Some c => <[key := VStr c]> data
  | None => data
  end.

(* --- Listing Number (Property ID) --- *)
Definition listing_no_rule : pystr :=
  match select_one soup (str ".p24_propertyOverviewRow:nth-child(1) .p24_info") with
  | Some listing_no_elem => get_text [] listing_no_elem
  | None => str "None"
  end.

(* --- Main Image URL --- *)
Definition image_url_rule : pyval :=
  match find_div_class_containing soup (str "js_lightboxImageWrapper") with
  | Some img_elem =>
      match tag_attrs img_elem !! str "data-image-url" with
      | Some v => VStr v
      | None => VNone
      end
  | None => VNone
  end.

Definition extract_listing_data : record :=
  let data : record := ∅ in
  let data := <[str "price" := VStr price_rule]> data in
  let data := <[str "size" := VStr size_rule]> data in
  let data := <[str "description" := VStr description_rule]> data in
  let '(data, features) := feature_loop data in
  let data := <[str "features" := VList features]> data in
  let data := <[str "address" := VStr address_rule]> data in
  let data := set_crumb (str "Province") 0 data in
  let data := set_crumb (str "City") 1 data in
  let data := set_crumb (str "Town") 2 data in
  let data := <[str "ListingNo" := VStr listing_no_rule]> data in
  let data := <[str "image_url" := image_url_rule]> data in
  data.
End Extraction.

(** ** Utility functions *)

(** [range(0, stop, step)] for a positive [step]. *)
Definition range_step (stop step : nat) : list nat :=
  (λ k, k * step) <$> seq 0 ((stop + step - 1) / step).

(** [lst[i:j]] for [0 <= i <= j]. *)
Definition slice {A} (lst : list A) (i j : nat) : list A :=
  take (j - i) (drop i lst).

(** The exceptions of the program and of its collaborators.  The first
    five derive from [Exception].  [CancelledError], which the event loop
    throws into a cancelled task at its [await], and [KeyboardInterrupt]
    derive from [BaseException] only. *)
Inductive exn :=
| ValueError (msg : pystr)
| KeyError (key : pystr)
| HTTPError (status_code : Z)
| RequestException (msg : pystr)
| ParserError (msg : pystr)
| CancelledError
| KeyboardInterrupt.

(** [isinstance(e, Exception)] *)
Definition is_Exception (e : exn) : bool :=
  match e with
  | CancelledError | KeyboardInterrupt => false
  | _ => true
  end.

(** [list(chunker(lst, n))]: the chunks the generator yields, or the error
    it raises when first advanced.  A negative [n] is outside this model. *)
Definition chunker {A} (lst : list A) (n : nat) : list (list A) + exn :=
  match n with
  | O => inr (ValueError (str "range() arg 3 must not be zero"))
  | S _ => inl ((λ i, slice lst i (i + n)) <$> range_step (length lst) n)
  end.

(** ** Globals and effects *)

#[global] Instance pyval_countable : Countable pyval.
Proof.
  refine (inj_countable'
    (λ v, match v with
          | VStr s => inl s
          | VList l => inr (inl l)
          | VNone => inr (inr ())
          end)
    (λ x, match x with
          | inl s => VStr s
          | inr (inl l) => VList l
          | inr (inr _) => VNone
          end) _); by intros [].
Defined.

(** The module level variables the tasks share. *)
Record Globals := {
  scraped_links : gset pystr;
  listing_nums : gset pyval;
  data_bun : list record
}.

(** Their values when the module has been loaded. *)
Definition initial_globals : Globals :=
  {| scraped_links := ∅; listing_nums := ∅; data_bun := [] |}.

(** A computation on the globals that returns or raises.  What it did to
    the globals before raising stays done. *)
Definition M (A : Type) : Type := Globals → (A + exn) * Globals.

#[global] Instance M_ret : MRet M := λ A a g, (inl a, g).
#[global] Instance M_bind : MBind M := λ A B f m g,
  match m g with
  | (inl a, g') => f a g'
  | (inr e, g') => (inr e, g')
  end.

Definition raise {A} (e : exn) : M A := λ g, (inr e, g).

(** A value or an exception of a collaborator, inside [M]. *)
Definition lift {A} (x : A + exn) : M A := λ g, (x, g).

(** [try: body except Exception as e: handler(e)].  An exception that is
    no instance of [Exception] is not caught. *)
Definition try_except {A} (body : M A) (handler : exn → M A) : M A := λ g,
  match body g with
  | (inl a, g') => (inl a, g')
  | (inr e, g') => if is_Exception e then handler e g' else (inr e, g')
  end.

Definition get_globals : M Globals := λ g, (inl g, g).

(** [scraped_links.add(href)] *)
Definition scraped_links_add (href : pystr) : M () := λ g,
  (inl (), {| scraped_links := {[href]} ∪ scraped_links g;
              listing_nums := listing_nums g;
              data_bun := data_bun g |}).

(** [listing_nums.add(no)] *)
Definition listing_nums_add (no : pyval) : M () := λ g,
  (inl (), {| scraped_links := scraped_links g;
              listing_nums := {[no]} ∪ listing_nums g;
              data_bun := data_bun g |}).

(** [data_bun.append(data)] *)
Definition data_bun_append (data : record) : M () := λ g,
  (inl (), {| scraped_links := scraped_links g;
              listing_nums := listing_nums g;
              data_bun := data_bun g ++ [data] |}).

(** [for x in xs: acc = body(acc, x)] *)
Fixpoint for_each {A B} (xs : list A) (acc : B) (body : B → A → M B) : M B :=
  match xs with
  | [] => mret acc
  | x :: xs' => acc' ← body acc x; for_each xs' acc' body
  end.

(** ** The collaborators *)

Record Response := {
  status_code : Z;
  text : pystr
}.

(** The transport and the parser.  Each call returns or raises.  What is
    raised may be any exception, also one that is no instance of
    [Exception]: the cancellation of the task, which arrives at the [await]
    of the fetch, or a keyboard interrupt. *)
Class Collaborators := {
  (** [await session.get(url, proxies=proxy, impersonate=..., timeout=30)] *)
  session_get : pystr → Response + exn;
  (** [BeautifulSoup(text, "html.parser")] *)
  BeautifulSoup : pystr → Soup + exn
}.

(** A world: collaborators that raise nothing but instances of
    [Exception], as in a run that is neither cancelled nor interrupted. *)
Class World := {
  collaborators : Collaborators;
  session_get_Exception : ∀ url e,
    session_get url = inr e → is_Exception e = true;
  BeautifulSoup_Exception : ∀ markup e,
    BeautifulSoup markup = inr e → is_Exception e = true
}.

#[global] Existing Instance collaborators.
Coercion collaborators : World >-> Collaborators.

(** [r.raise_for_status()] *)
Definition raise_for_status (r : Response) : M () :=
  if bool_decide (200 ≤ status_code r < 400)%Z then mret ()
  else raise (HTTPError (status_code r)).

(** [tag[key]] *)
Definition tag_getitem (t : Tag) (key : pystr) : M pystr :=
  match tag_attrs t !! key with
  | Some v => mret v
  | None => raise (KeyError key)
  end.

(** [d[key]] *)
Definition dict_getitem (d : record) (key : pystr) : M pyval :=
  match d !! key with
  | Some v => mret v
  | None => raise (KeyError key)
  end.

(** ** The asynchronous scraping functions *)

Section Tasks.
Context `{UnicodeTables} `{Collaborators}.

(** Lines 221-222: a root-relative link is rewritten against the host. *)
Definition absolute (href : pystr) : pystr :=
  if startswith href (str "/") then str "https://www.property24.com" ++ href
  else href.

(** Lines 226-228: an absolute [href] that matches the listing pattern
    and is not in [scraped_links] is added to it and to this page's
    [links].  The answer tells whether that happened.  No [await] stands
    between the test and the two additions. *)
Definition reserve_url (href : pystr) : M bool :=
  g ← get_globals;
  if re.match_ PROPERTY24_REGEX href && bool_decide (href ∉ scraped_links g)
  then scraped_links_add href;; mret true
  else mret false.

(** The body of [for a in soup.select("a[href]")]. *)
Definition link_step (links : gset pystr) (a : Tag) : M (gset pystr) :=
  href ← tag_getitem a (str "href");
  let href := absolute href in
  fresh ← reserve_url href;
  mret (if fresh : bool then {[href]} ∪ links else links).

(** [async_scrape_page], from the point where the awaited fetch has
    completed or has raised.  [list(links)] is given in the order of
    [elements]: Python fixes no order for the elements of a set, and the
    properties below use membership, distinctness and length only. *)
Definition async_scrape_page (url : pystr) : M (list pystr) :=
  try_except
    (r ← lift (session_get url);
     raise_for_status r;;
     soup ← lift (BeautifulSoup (text r));
     links ← for_each (select soup (str "a[href]")) ∅ link_step;
     mret (elements links))
    (λ e, mret []).

(** Lines 265-276, under [listing_nums_lock]. *)
Definition reserve_listing (listing_data : record) : M (option record) :=
  no ← dict_getitem listing_data (str "ListingNo");
  g ← get_globals;
  if bool_decide (no ≠ VStr (str "None")) && bool_decide (no ∉ listing_nums g)
  then listing_nums_add no;; mret (Some listing_data)
  else if bool_decide (no = VStr (str "None")) then mret (Some listing_data)
  else mret None.

(** [async_scrape_listing], from the point where the awaited fetch has
    completed or has raised. *)
Definition async_scrape_listing (url : pystr) : M (option record) :=
  try_except
    (r ← lift (session_get url);
     raise_for_status r;;
     soup ← lift (BeautifulSoup (text r));
     let listing_data := extract_listing_data soup in
     let listing_data := <[str "url" := VStr url]> listing_data in
     reserve_listing listing_data)
    (λ e, mret None).
End Tasks.

(** ** The batch driver *)

(** [await asyncio.gather( *batch )].  The coroutines of the batch suspend
    only at their fetch; once its fetch has completed a coroutine runs to its
    return, or to the exception it raises, without giving up control.
    [order] lists the indices of the batch in the order the fetches
    complete; the results come back in batch order.  An exception a
    coroutine raises is raised to the caller, and the coroutines whose
    fetch has not completed by then are not resumed. *)
Fixpoint run_in_order {R} (batch : list (M R)) (order : list nat)
         (finished : gmap nat R) : M (gmap nat R) :=
  match order with
  | [] => mret finished
  | i :: order' =>
      match batch !! i with
      | Some coroutine =>
          r ← coroutine; run_in_order batch order' (<[i := r]> finished)
      | None => run_in_order batch order' finished
      end
  end.

Definition gather {R} (batch : list (M R)) (order : list nat) : M (list R) :=
  finished ← run_in_order batch order ∅;
  mret (omap (λ i, finished !! i) (seq 0 (length batch))).

(** A completion order for a batch of [n] coroutines. *)
Definition completion_order (n : nat) (order : list nat) : Prop :=
  order ≡ₚ seq 0 n.

(** [if data:] on what a listing task returned. *)
Definition truthy (data : option record) : bool :=
  match data with
  | Some d => negb (bool_decide (d = ∅))
  | None => false
  end.

(** ** Main execution logic *)

Section Main.
Context `{UnicodeTables} `{Collaborators}.

Definition base_url_format (page_num : nat) : pystr :=
  str "https://www.property24.com/for-sale/gauteng/1/p" ++ str_of_nat page_num.

Definition max_pages_to_scrape : nat := 10.
Definition batch_size : nat := 10.

(** The loop over the page batches.  [schedule] gives one completion
    order for each batch. *)
Fixpoint page_batches (batches : list (list (M (list pystr))))
         (schedule : list (list nat)) (all_listing_links : list pystr)
  : M (list pystr) :=
  match batches with
  | [] => mret all_listing_links
  | batch :: batches' =>
      batch_results ← gather batch (default [] (head schedule));
      page_batches batches' (tail schedule)
        (all_listing_links ++ concat batch_results)
  end.

(** Phase 1: the listing links of the search pages. *)
Definition phase1 (schedule : list (list nat)) : M (list pystr) :=
  let page_tasks :=
    (λ page_num, async_scrape_page (base_url_format page_num))
      <$> seq 1 max_pages_to_scrape in
  batches ← lift (chunker page_tasks batch_size);
  page_batches batches schedule [].

(** [for data in batch_results: if data: data_bun.append(data)] *)
Definition collect (batch_results : list (option record)) : M () :=
  for_each batch_results () (λ _ data,
    match data with
    | Some d => if truthy data then data_bun_append d else mret ()
    | None => mret ()
    end).

Fixpoint listing_batches (batches : list (list (M (option record))))
         (schedule : list (list nat)) : M () :=
  match batches with
  | [] => mret ()
  | batch :: batches' =>
      batch_results ← gather batch (default [] (head schedule));
      collect batch_results;;
      listing_batches batches' (tail schedule)
  end.

(** Phase 2: the records of the listing pages. *)
Definition phase2 (all_listing_links : list pystr)
           (schedule : list (list nat)) : M () :=
  let listing_tasks := async_scrape_listing <$> all_listing_links in
  batches ← lift (chunker listing_tasks batch_size);
  listing_batches batches schedule.

(** [main], up to the point where [data_bun] is written out. *)
Definition main (schedule1 schedule2 : list (list nat)) : M () :=
  all_listing_links ← phase1 schedule1;
  phase2 all_listing_links schedule2.
End Main.

(** ** Notions used to state the properties *)

(** Number of [/] in a string, and the least number every match of a
    pattern contains. *)
Definition slash : N := 47.

Definition count_slash (s : pystr) : nat := length (filter (λ c, c = slash) s).

Fixpoint min_slashes (p : re.pattern) : nat :=
  match p with
  | re.Lit c => if bool_decide (c = slash) then 1 else 0
  | re.Seq p q => min_slashes p + min_slashes q
  | re.Plus p | re.PlusLazy p => min_slashes p
  | _ => 0
  end.

(** What a successful run of a pattern consumed, and where it handed over
    to its continuation. *)
Definition consumes `{UnicodeTables} (p : re.pattern) : Prop :=
  ∀ b s k, re.run p b s k = true →
    ∃ b' s1 s2, s = s1 ++ s2 ∧ k b' s2 = true ∧ min_slashes p ≤ count_slash s1.

(** Unicode tables with nothing beyond ASCII, for the examples. *)
Definition ascii_only : UnicodeTables :=
  {| unicode_decimal := λ _, false;
     unicode_tolower := λ c, c;
     unicode_digit := λ _, false |}.

(** The text of a feature element. *)
Definition feature_text (item : Tag) : pystr := get_text [] item.

(** The key and value a feature element is promoted to, when its text has
    a colon. *)
Definition promotion (item : Tag) : option (pystr * pystr) :=
  let text := feature_text item in
  if contains colon text
  then Some (strip (split_first colon text).1, strip (split_first colon text).2)
  else None.

(** The promotions of a page, in document order. *)
Definition promotions (soup : Soup) : list (pystr * pystr) :=
  omap promotion (find_all soup (str "p24_listingFeatures")).

(** The record after the promotions [kvs] have been stored in order. *)
Definition promote_all (data : record) (kvs : list (pystr * pystr)) : record :=
  foldl (λ d kv, <[kv.1 := VStr kv.2]> d) data kvs.

(** The value the last feature element with key [k] gives it. *)
Definition promoted (soup : Soup) (k : pystr) : option pystr :=
  last (snd <$> filter (λ kv, kv.1 = k) (promotions soup)).

(** The texts of the feature elements without a colon, in document order. *)
Definition plain_features (soup : Soup) : list pystr :=
  filter (λ text, contains colon text = false)
    (feature_text <$> find_all soup (str "p24_listingFeatures")).

(** The fields [extract_listing_data] assigns after the loop over the
    feature elements. *)
Definition late_fields : list pystr :=
  [str "features"; str "address"; str "Province"; str "City"; str "Town";
   str "ListingNo"; str "image_url"].

(** What the extraction rule of a field gives on a page, [None] when the
    rule leaves the field out or there is no such field. *)
Definition own_rule `{UnicodeTables} (soup : Soup) (field : pystr) : option pyval :=
  if bool_decide (field = str "price") then Some (VStr (price_rule soup))
  else if bool_decide (field = str "size") then Some (VStr (size_rule soup))
  else if bool_decide (field = str "description")
    then Some (VStr (description_rule soup))
  else if bool_decide (field = str "features")
    then Some (VList (plain_features soup))
  else if bool_decide (field = str "address") then Some (VStr (address_rule soup))
  else if bool_decide (field = str "Province") then VStr <$> crumbs soup !! 0
  else if bool_decide (field = str "City") then VStr <$> crumbs soup !! 1
  else if bool_decide (field = str "Town") then VStr <$> crumbs soup !! 2
  else if bool_decide (field = str "ListingNo")
    then Some (VStr (listing_no_rule soup))
  else if bool_decide (field = str "image_url") then Some (image_url_rule soup)
  else None.

(** A document that answers like [soup] except for the price element. *)
Definition with_price (soup : Soup) (price_elem : option Tag) : Soup :=
  {| find := λ c, if bool_decide (c = str "p24_price") then price_elem
                  else find soup c;
     find_all := find_all soup;
     select := select soup;
     select_one := select_one soup;
     find_div_class_containing := find_div_class_containing soup |}.

(** An element with one string below it and no attributes. *)
Definition text_tag (s : pystr) : Tag :=
  {| tag_strings := [s]; tag_attrs := ∅ |}.

(** A page with the given price element and feature elements and nothing
    else, for the examples. *)
Definition page (price_elem : option Tag) (features : list Tag) : Soup :=
  {| find := λ c, if bool_decide (c = str "p24_price") then price_elem else None;
     find_all := λ c, if bool_decide (c = str "p24_listingFeatures")
                      then features else [];
     select := λ _, [];
     select_one := λ _, None;
     find_div_class_containing := λ _, None |}.

(** A computation that returns from every state. *)
Definition total {A} (m : M A) : Prop :=
  ∀ g, ∃ a g', m g = (inl a, g').

(** A computation that raises nothing but instances of [Exception]. *)
Definition raises_Exception {A} (m : M A) : Prop :=
  ∀ g e g', m g = (inr e, g') → is_Exception e = true.

(** A coroutine that reserves tokens in a registry of the globals: it
    returns from every state, the tokens of its result were not in the
    registry before and are in it afterwards, the registry only grows, and
    [data_bun] is left alone.  For a page task the tokens are the links it
    returns and the registry is [scraped_links]; for a listing task the
    token is the listing number of the record it returns, unless that is
    the string [None], and the registry is [listing_nums]. *)
Definition reserving {T R} `{Countable T}
    (tokens : R → list T) (registry : Globals → gset T) (task : M R) : Prop :=
  ∀ g, ∃ r g',
    task g = (inl r, g')
    ∧ NoDup (tokens r)
    ∧ (∀ x, x ∈ tokens r → (x ∉ registry g) ∧ (x ∈ registry g'))
    ∧ registry g ⊆ registry g'
    ∧ data_bun g' = data_bun g.

(** What holds of the finished coroutines of a batch while it runs:
    the registry contains what it did when the batch started ([before]);
    the tokens of a finished result are distinct, in the registry and not
    in [before]; the results of two coroutines share no token. *)
Definition batch_invariant {T R} `{Countable T}
    (tokens : R → list T) (registry : Globals → gset T)
    (before : gset T) (finished : gmap nat R) (g : Globals) : Prop :=
  before ⊆ registry g
  ∧ (∀ i r, finished !! i = Some r →
       NoDup (tokens r)
       ∧ ∀ x, x ∈ tokens r → (x ∈ registry g) ∧ (x ∉ before))
  ∧ (∀ i j ri rj x, i ≠ j →
       finished !! i = Some ri → finished !! j = Some rj →
       x ∈ tokens ri → x ∉ tokens rj).

(** The listing number of a record as a token: none for the string [None]
    and for a record without the key. *)
Definition record_ids (d : record) : list pyval :=
  match d !! str "ListingNo" with
  | Some no => if bool_decide (no = VStr (str "None")) then [] else [no]
  | None => []
  end.

Definition result_ids (r : option record) : list pyval :=
  from_option record_ids [] r.

(** [data_bun] holds no two records with the same listing number other
    than the string [None], and the listing numbers it holds are in
    [listing_nums]. *)
Definition data_bun_distinct (g : Globals) : Prop :=
  NoDup (concat (record_ids <$> data_bun g))
  ∧ ∀ x, x ∈ concat (record_ids <$> data_bun g) → x ∈ listing_nums g.

(** The records a batch of results adds to [data_bun]. *)
Definition collected (batch_results : list (option record)) : list record :=
  omap (λ data, if truthy data then data else None) batch_results.

(** The state with [data_bun] replaced. *)
Definition set_data_bun (g : Globals) (bun : list record) : Globals :=
  {| scraped_links := scraped_links g;
     listing_nums := listing_nums g;
     data_bun := bun |}.

(** The fetch of [url] or the parse of what it returned fails. *)
Definition fetch_or_parse_fails `{Collaborators} (url : pystr) : Prop :=
  match session_get url with
  | inr _ => True
  | inl r =>
      ¬ (200 ≤ status_code r < 400)%Z ∨ ∃ e, BeautifulSoup (text r) = inr e
  end.

(** A world in which every fetch times out. *)
Definition offline : World :=
  {| collaborators :=
       {| session_get := λ _, inr (RequestException (str "timed out"));
          BeautifulSoup := λ _, inr (ParserError (str "no document")) |};
     session_get_Exception := λ _ e Hget,
       match Hget in _ = x return if x is inr e' then is_Exception e' = true else True
       with eq_refl => eq_refl end;
     BeautifulSoup_Exception := λ _ e Hparse,
       match Hparse in _ = x return if x is inr e' then is_Exception e' = true else True
       with eq_refl => eq_refl end |}.

(** Collaborators whose every fetch is cut short by the cancellation of
    the task that awaits it. *)
Definition cancelled : Collaborators :=
  {| session_get := λ _, inr CancelledError;
     BeautifulSoup := λ _, inr (ParserError (str "no document")) |}.

(** Collaborators that fetch an empty page, and whose parser is stopped by
    a keyboard interrupt. *)
Definition interrupted : Collaborators :=
  {| session_get := λ _, inl {| status_code := 200; text := [] |};
     BeautifulSoup := λ _, inr KeyboardInterrupt |}.

(** An anchor element. *)
Definition anchor (href : pystr) : Tag :=
  {| tag_strings := []; tag_attrs := {[str "href" := href]} |}.

(** A world in which every page is the same document: it links to one
    listing twice, once root-relative and once absolute, and to a page that
    is no listing, and its overview row gives the listing number 999. *)
Definition example_soup : Soup :=
  {| find := λ _, None;
     find_all := λ _, [];
     select := λ css,
       if bool_decide (css = str "a[href]")
       then [anchor (str "/for-sale/a/b/c/1/2");
             anchor (str "https://www.property24.com/for-sale/a/b/c/1/2");
             anchor (str "/contact")]
       else [];
     select_one := λ _, Some (text_tag (str "999"));
     find_div_class_containing := λ _, None |}.

Definition example_world : World :=
  {| collaborators :=
       {| session_get := λ _, inl {| status_code := 200; text := [] |};
          BeautifulSoup := λ _, inl example_soup |};
     session_get_Exception := λ _ e Hget,
       match Hget in _ = x return if x is inr e' then is_Exception e' = true else True
       with eq_refl => I end;
     BeautifulSoup_Exception := λ _ e Hparse,
       match Hparse in _ = x return if x is inr e' then is_Exception e' = true else True
       with eq_refl => I end |}.

(** The records of [data_bun] whose listing number is [no]. *)
Definition with_listing_no (no : pyval) (bun : list record) : list record :=
  filter (λ d, d !! str "ListingNo" = Some no) bun.

(** A run of reservation attempts on raw links, one after the other, with
    the answer of each. *)
Fixpoint reserve_all `{UnicodeTables} (hrefs : list pystr) : M (list bool) :=
  match hrefs with
  | [] => mret []
  | href :: hrefs' =>
      b ← reserve_url (absolute href);
      bs ← reserve_all hrefs';
      mret (b :: bs)
  end.

(** Line 331: the number of batches the progress message of phase 2
    announces, [len(listing_tasks)//batch_size + 1]. *)
Definition announced_batches {A} (listing_tasks : list A) : nat :=
  length listing_tasks / batch_size + 1.

(** A coroutine that keeps an invariant of the globals: from a state where
    [I] holds it returns, [I] holds afterwards, its result satisfies [P],
    and [data_bun] is left alone. *)
Definition keeps {R} (I : Globals → Prop) (P : R → Prop) (task : M R) : Prop :=
  ∀ g, I g → ∃ r g',
    task g = (inl r, g') ∧ I g' ∧ P r ∧ data_bun g' = data_bun g.

(** A record that was scraped from one of [links]: its [url] is one of
    them, and it has the keys every extracted record has. *)
Definition saved_from (links : list pystr) (d : record) : Prop :=
  ∃ u, u ∈ links
       ∧ d !! str "url" = Some (VStr u)
       ∧ ∀ k, k ∈ [str "price"; str "size"; str "description"; str "features";
                   str "address"; str "ListingNo"; str "image_url"] →
              is_Some (d !! k).

(* ================================================================== *)
(** * Part II: properties *)
(* ================================================================== *)
(** ** The primitives on small inputs *)

Example strip_example : strip (str "  R 2 000 000 ") = str "R 2 000 000".
Proof. by vm_compute. Qed.

Example split_first_example :
  split_first colon (str "Erf Size: 500 m: approx")
    = (str "Erf Size", str " 500 m: approx").
Proof. by vm_compute. Qed.

Example replace_example :
  replace (str " Read Less") [] (str "Sunny flat Read Less") = str "Sunny flat".
Proof. by vm_compute. Qed.

Example get_text_example :
  get_text (str " ")
    {| tag_strings := [str " Sunny "; str "  "; str "flat"]; tag_attrs := ∅ |}
    = str "Sunny flat".
Proof. by vm_compute. Qed.

Example clean_description_example :
  clean_description (str "Sunny flat Sunny flat") = str "Sunny flat".
Proof. by vm_compute. Qed.

Example str_of_nat_example : str_of_nat 10 = str "10".
Proof. by vm_compute. Qed.

(** Case is ignored, [www.] and a query are optional, a final newline is
    allowed by [$]; a search page is no listing. *)
Example pattern_examples :
  @re.match_ ascii_only PROPERTY24_REGEX
    (str "HTTPS://Property24.com/For-Sale/a/b/c/1/2/?x=1") = true
  ∧ @re.match_ ascii_only PROPERTY24_REGEX
      (str "https://www.property24.com/for-sale/a/b/c/1/2" ++ [10%N]) = true
  ∧ @re.match_ ascii_only PROPERTY24_REGEX
      (str "https://www.property24.com/for-sale/gauteng/1/p3") = false
  ∧ @re.match_ ascii_only PROPERTY24_REGEX
      (str "http://www.property24.com/for-sale/a/b/c/1/2") = false.
Proof. by vm_compute. Qed.

(** ** Strings *)

Section StripFacts.
Implicit Types s t w : pystr.

Lemma lstrip_spaces w s : Forall (λ c, isspace c = true) w → lstrip (w ++ s) = lstrip s.
Proof. induction 1 as [|c w Hc _ IH]; simpl; [done|]. by rewrite Hc. Qed.

Lemma lstrip_length s : length (lstrip s) ≤ length s.
Proof. induction s as [|c s IH]; simpl; [done|]. destruct (isspace c); simpl; lia. Qed.

Lemma lstrip_fixed_iff s : lstrip s = s ↔ (∀ c s', s = c :: s' → isspace c = false).
Proof.
  split.
  - intros Hs c s' ->. simpl in Hs. destruct (isspace c) eqn:Hc; [|done].
    pose proof (lstrip_length s'). apply (f_equal length) in Hs. simpl in Hs. lia.
  - destruct s as [|c s']; [done|]. intros Hc. simpl. by rewrite (Hc c s').
Qed.

Lemma lstrip_idemp s : lstrip (lstrip s) = lstrip s.
Proof.
  induction s as [|c s IH]; simpl; [done|].
  destruct (isspace c) eqn:Hc; [done|]. simpl. by rewrite Hc.
Qed.

Lemma lstrip_app_fixed s t : s ≠ [] → lstrip s = s → lstrip (s ++ t) = s ++ t.
Proof.
  intros Hne Hs. destruct s as [|c s']; [done|].
  simpl in *. destruct (isspace c) eqn:Hc; [|done].
  pose proof (lstrip_length s'). apply (f_equal length) in Hs. simpl in Hs. lia.
Qed.

Lemma rstrip_spaces w s : Forall (λ c, isspace c = true) w → rstrip (s ++ w) = rstrip s.
Proof.
  intros Hw. unfold rstrip. rewrite reverse_app, lstrip_spaces; [done|].
  by apply Forall_reverse.
Qed.

Lemma rstrip_length s : length (rstrip s) ≤ length s.
Proof.
  unfold rstrip. rewrite length_reverse.
  etrans; [apply lstrip_length|]. by rewrite length_reverse.
Qed.

Lemma rstrip_idemp s : rstrip (rstrip s) = rstrip s.
Proof. unfold rstrip. by rewrite reverse_involutive, lstrip_idemp. Qed.

Lemma rstrip_app_fixed s t : t ≠ [] → rstrip t = t → rstrip (s ++ t) = s ++ t.
Proof.
  intros Hne Ht. unfold rstrip in *. rewrite reverse_app.
  rewrite lstrip_app_fixed.
  - by rewrite <- reverse_app, reverse_involutive.
  - intros Hr. apply Hne. apply (f_equal reverse) in Hr.
    by rewrite reverse_involutive in Hr.
  - apply (f_equal reverse) in Ht. by rewrite reverse_involutive in Ht.
Qed.

(** A character that is not white space is kept at the front by [rstrip]. *)
Lemma rstrip_cons c s : isspace c = false → rstrip (c :: s) = c :: rstrip s.
Proof.
  intros Hc. revert c Hc. induction s as [|d s IH] using rev_ind; intros c Hc.
  - unfold rstrip. rewrite !reverse_singleton. simpl. by rewrite Hc.
  - destruct (isspace d) eqn:Hd.
    + rewrite app_comm_cons, !rstrip_spaces by (by repeat constructor). by apply IH.
    + assert (rstrip [d] = [d]) as Hfix.
      { unfold rstrip. rewrite reverse_singleton. simpl. by rewrite Hd. }
      rewrite app_comm_cons, !rstrip_app_fixed by done. done.
Qed.

Lemma strip_fixed s : strip s = s → lstrip s = s ∧ rstrip s = s.
Proof.
  unfold strip. intros Hs.
  assert (lstrip s = s) as Hl.
  { pose proof (rstrip_length (lstrip s)) as H1. pose proof (lstrip_length s) as H2.
    apply lstrip_fixed_iff. intros c s' ->. simpl in *.
    destruct (isspace c) eqn:Hc; [|done].
    apply (f_equal length) in Hs. pose proof (lstrip_length s'). simpl in *. lia. }
  split; [done|]. by rewrite Hl in Hs.
Qed.

Lemma lstrip_rstrip_fixed s : lstrip s = s → lstrip (rstrip s) = rstrip s.
Proof.
  intros Hs. destruct s as [|c s']; [done|].
  assert (isspace c = false) as Hc by (by eapply lstrip_fixed_iff).
  rewrite rstrip_cons by done. simpl. by rewrite Hc.
Qed.

Lemma strip_idemp s : strip (strip s) = strip s.
Proof.
  unfold strip. rewrite lstrip_rstrip_fixed by apply lstrip_idemp.
  apply rstrip_idemp.
Qed.

Lemma strip_spaces w : Forall (λ c, isspace c = true) w → strip w = [].
Proof.
  intros Hw. unfold strip.
  rewrite <- (app_nil_r w), lstrip_spaces by done. done.
Qed.

(** White space around a trimmed string is what [strip] removes. *)
Lemma strip_padded w1 s w2 :
  strip s = s →
  Forall (λ c, isspace c = true) w1 → Forall (λ c, isspace c = true) w2 →
  strip (w1 ++ s ++ w2) = s.
Proof.
  intros Hs Hw1 Hw2. destruct (strip_fixed s Hs) as [Hl Hr].
  destruct (decide (s = [])) as [->|Hne].
  { simpl. apply strip_spaces. by apply Forall_app. }
  unfold strip. rewrite lstrip_spaces, lstrip_app_fixed by done.
  by rewrite rstrip_spaces.
Qed.
End StripFacts.

(** ** [remove_superscripts] *)

Lemma sub_class_delete class text :
  re.sub_class class [] text = filter (λ c, c ∉ class) text.
Proof.
  induction text as [|c t IH]; simpl; [done|].
  rewrite filter_cons. case_bool_decide; case_decide; simpl; congruence.
Qed.

(** C10: [remove_superscripts] deletes exactly the occurrences of U+00B2,
    U+00B3, U+00E9, U+00B0 and U+00B1 and keeps every other character in
    place; it is idempotent; a text with the letter U+00E9 in it, such as
    the word "café", is altered. *)
Theorem remove_superscripts_spec (text : pystr) :
  remove_superscripts text
    = filter (λ c, c ∉ [0xb2; 0xb3; 0xe9; 0xb0; 0xb1]%N) text
  ∧ remove_superscripts (remove_superscripts text) = remove_superscripts text
  ∧ remove_superscripts (str "caf" ++ [0xe9%N]) = str "caf"
  ∧ (∀ pre post : pystr,
       remove_superscripts (pre ++ 0xe9%N :: post) ≠ pre ++ 0xe9%N :: post).
Proof.
  unfold remove_superscripts. rewrite !sub_class_delete. split_and!.
  - done.
  - apply list_filter_filter_l. tauto.
  - by vm_compute.
  - intros pre post Heq.
    assert (0xe9%N ∈ filter (λ c, c ∉ superscript_class) (pre ++ 0xe9%N :: post)) as Hin.
    { rewrite sub_class_delete in Heq. rewrite Heq. set_solver. }
    apply list_elem_of_filter in Hin as [Hnot _]. apply Hnot.
    unfold superscript_class. set_solver.
Qed.

(** ** [clean_description] *)

(** C6, as the code has it: with [half = len(D) // 2], the result is the
    trimmed first half when the two halves are equal after trimming, and
    the trimmed text otherwise.  A trimmed text [H] repeated after white
    space [W1] and followed by white space [W2] at most one longer than
    [W1] is reduced to [H].  The result is always trimmed, and a trimmed
    text whose halves differ after trimming is returned unchanged. *)
Theorem clean_description_spec :
  (∀ D : pystr,
     strip (take (length D / 2) D) = strip (drop (length D / 2) D) →
     clean_description D = strip (take (length D / 2) D))
  ∧ (∀ D : pystr,
       strip (take (length D / 2) D) ≠ strip (drop (length D / 2) D) →
       clean_description D = strip D)
  ∧ (∀ H W1 W2 : pystr,
       strip H = H →
       Forall (λ c, isspace c = true) W1 → Forall (λ c, isspace c = true) W2 →
       length W2 ≤ length W1 + 1 →
       clean_description (H ++ W1 ++ H ++ W2) = H)
  ∧ (∀ D : pystr, strip (clean_description D) = clean_description D)
  ∧ (∀ S : pystr,
       strip S = S →
       strip (take (length S / 2) S) ≠ strip (drop (length S / 2) S) →
       clean_description S = S).
Proof.
  assert (∀ D : pystr,
     strip (take (length D / 2) D) ≠ strip (drop (length D / 2) D) →
     clean_description D = strip D) as Hdiff.
  { intros D HD. unfold clean_description. by rewrite bool_decide_eq_false_2. }
  split_and!.
  - intros D HD. unfold clean_description. by rewrite bool_decide_eq_true_2.
  - done.
  - intros H W1 W2 HH HW1 HW2 Hlen.
    set (D := H ++ W1 ++ H ++ W2).
    set (k := (length W1 + length W2) / 2).
    assert (length D / 2 = length H + k) as Hhalf.
    { unfold D, k. rewrite !length_app.
      symmetry. apply Nat.div_unique with ((length W1 + length W2) mod 2).
      - apply Nat.mod_upper_bound. lia.
      - pose proof (Nat.div_mod_eq (length W1 + length W2) 2). lia. }
    assert (k ≤ length W1) as Hk.
    { enough (k < length W1 + 1) by lia.
      unfold k. apply Nat.Div0.div_lt_upper_bound. lia. }
    assert (take (length H + k) D = H ++ take k W1) as Htake.
    { unfold D. rewrite take_app_add'; [|done]. f_equal. rewrite take_app_le; done. }
    assert (drop (length H + k) D = drop k W1 ++ H ++ W2) as Hdrop.
    { unfold D. rewrite drop_app_add'; [|done]. rewrite drop_app_le; done. }
    assert (strip (H ++ take k W1) = H) as H1.
    { apply (strip_padded [] H (take k W1)); [done|constructor|by apply Forall_take]. }
    assert (strip (drop k W1 ++ H ++ W2) = H) as H2.
    { apply strip_padded; [done|by apply Forall_drop|done]. }
    unfold clean_description. fold D. rewrite Hhalf, Htake, Hdrop, H1, H2.
    by rewrite bool_decide_eq_true_2.
  - intros D. unfold clean_description. case_bool_decide; apply strip_idemp.
  - intros S HS Hne. by rewrite Hdiff.
Qed.

Lemma clean_description_spec_witness :
  clean_description (str "a b" ++ str "  " ++ str "a b" ++ str " ") = str "a b"
  ∧ clean_description (str " ab c ") = str "ab c".
Proof.
  destruct clean_description_spec as (_ & Hdiff & Hdup & _).
  split.
  - apply Hdup; [by vm_compute|by repeat constructor|by repeat constructor|simpl; lia].
  - rewrite Hdiff; [by vm_compute|]. by vm_compute.
Defined.

(** C6 as the specification words it fails: a text [H + H'] with [H'] equal
    to [H] after trimming need not be reduced to [H]; a text without such a
    decomposition need not be left as its trimmed form; cleaning twice can
    differ from cleaning once. *)
Lemma clean_description_counterexample :
  (strip (str "ab  ") = str "ab"
   ∧ clean_description (str "ab" ++ str "ab  ") ≠ str "ab")
  ∧ ((∀ H H' : pystr, str " ab ab" = H ++ H' → strip H' ≠ H)
     ∧ clean_description (str " ab ab") ≠ strip (str " ab ab"))
  ∧ clean_description (clean_description (str "abab abab"))
      ≠ clean_description (str "abab abab").
Proof.
  split_and!; try by vm_compute.
  intros H H' Heq Hs.
  assert (strip H = H) as Hfix by (rewrite <- Hs; apply strip_idemp).
  apply strip_fixed in Hfix as [Hl _].
  destruct H as [|c H0].
  - simpl in Heq. subst H'. by vm_compute in Hs.
  - change (str " ab ab") with (32%N :: str "ab ab") in Heq.
    injection Heq as <- _.
    rewrite lstrip_fixed_iff in Hl. by specialize (Hl _ _ eq_refl).
Qed.

(** ** [chunker] *)

Section Chunker.
Context {A : Type}.
Implicit Types lst : list A.

(** The chunks of a list, by recursion on the number of chunks left. *)
Lemma range_step_S stop n :
  0 < n → 0 < stop →
  range_step stop n = 0 :: ((λ i, n + i) <$> range_step (stop - n) n).
Proof.
  intros Hn Hstop. unfold range_step.
  assert ((stop + n - 1) / n = S ((stop - n + n - 1) / n)) as ->.
  { destruct (decide (stop ≤ n)) as [Hle|Hgt].
    - replace (stop - n + n - 1) with (n - 1) by lia.
      rewrite (Nat.div_small (n - 1)) by lia.
      symmetry. apply Nat.div_unique with (stop - 1); lia.
    - replace (stop + n - 1) with (1 * n + (stop - n + n - 1)) by lia.
      rewrite Nat.div_add_l by lia. lia. }
  rewrite <- cons_seq. rewrite fmap_cons. f_equal.
  rewrite <- fmap_S_seq, <- !list_fmap_compose.
  apply list_fmap_ext. intros _ k _. simpl. lia.
Qed.

Lemma chunks_nil n : 0 < n → chunker ([] : list A) n = inl [].
Proof.
  intros Hn. unfold chunker, range_step. destruct n as [|n']; [lia|].
  rewrite Nat.div_small by (simpl; lia). done.
Qed.

Lemma chunks_cons lst n :
  0 < n → lst ≠ [] →
  ∃ rest, chunker (drop n lst) n = inl rest
          ∧ chunker lst n = inl (take n lst :: rest).
Proof.
  intros Hn Hne. unfold chunker. destruct n as [|n']; [lia|].
  set (n := S n') in *. eexists. split; [done|]. f_equal.
  rewrite range_step_S; [|done|destruct lst; simpl; [done|lia]].
  rewrite fmap_cons. f_equal.
  rewrite length_drop, <- list_fmap_compose.
  apply list_fmap_ext. intros _ i _. simpl. unfold slice.
  rewrite drop_drop. f_equal. lia.
Qed.

(** The chunks of a list of [q * n + r] elements, [r < n]: [q] chunks of
    [n] elements, then one of [r] elements unless [r] is zero.  They are
    consecutive parts of the list. *)
Lemma chunks_shape q : ∀ lst n r,
  0 < n → r < n → length lst = q * n + r →
  ∃ chunks, chunker lst n = inl chunks
    ∧ concat chunks = lst
    ∧ length <$> chunks = replicate q n ++ (if decide (r = 0) then [] else [r])
    ∧ ∀ k c, chunks !! k = Some c → c = take n (drop (k * n) lst).
Proof.
  induction q as [|q IH]; intros lst n r Hn Hr Hlen.
  - destruct (decide (r = 0)) as [->|Hr0].
    + destruct lst; [|done]. exists []. rewrite chunks_nil by done.
      split_and!; try done.
    + destruct (chunks_cons lst n Hn) as (rest & Hrest & Hch).
      { intros ->. simpl in *. lia. }
      rewrite drop_ge in Hrest by (simpl in Hlen; lia).
      rewrite chunks_nil in Hrest by done. injection Hrest as <-.
      exists [take n lst]. split_and!; [done|..].
      * simpl. rewrite app_nil_r. apply take_ge. simpl in Hlen. lia.
      * simpl. f_equal. rewrite length_take. simpl in Hlen. lia.
      * intros [|k] c Hk; simplify_eq/=. done.
  - destruct (chunks_cons lst n Hn) as (rest & Hrest & Hch).
    { intros ->. simpl in *. lia. }
    destruct (IH (drop n lst) n r Hn Hr) as (chunks & Hc & Hcat & Hsz & Hnth).
    { rewrite length_drop. simpl in Hlen. lia. }
    rewrite Hc in Hrest. injection Hrest as <-.
    exists (take n lst :: chunks). split_and!; [done|..].
    * simpl. by rewrite Hcat, take_drop.
    * rewrite fmap_cons, Hsz. simpl. f_equal. rewrite length_take. lia.
    * intros [|k] c Hk; simplify_eq/=; [done|].
      by rewrite (Hnth _ _ Hk), drop_drop.
Qed.

Lemma chunker_returns lst n :
  0 < n → ∃ groups, chunker lst n = inl groups ∧ concat groups = lst.
Proof.
  intros Hn.
  pose proof (Nat.div_mod_eq (length lst) n) as Hdm.
  pose proof (Nat.mod_upper_bound (length lst) n ltac:(lia)) as Hr.
  destruct (chunks_shape (length lst / n) lst n (length lst mod n) Hn Hr
              ltac:(lia)) as (groups & Hc & Hcat & _).
  by exists groups.
Qed.
End Chunker.

(** C5: for a batch size [B > 0] the chunker cuts a list of [N] tasks into
    [ceil(N / B)] consecutive groups whose concatenation is the list; every
    group but the last has [B] elements, and the last has [N mod B] when
    that is not zero, [B] otherwise; 25 tasks in batches of 10 make groups
    of 10, 10 and 5. *)
Theorem chunker_spec {A} (lst : list A) (B : nat) :
  0 < B →
  ∃ groups,
    chunker lst B = inl groups
    ∧ length groups = length lst / B + (if decide (length lst mod B = 0) then 0 else 1)
    ∧ concat groups = lst
    ∧ (∀ k g, groups !! k = Some g → g = take B (drop (k * B) lst))
    ∧ (∀ k g, groups !! k = Some g → S k < length groups → length g = B)
    ∧ (∀ g, last groups = Some g →
            length g = if decide (length lst mod B = 0) then B else length lst mod B)
    ∧ (length lst = 25 → B = 10 → length <$> groups = [10; 10; 5]).
Proof.
  intros HB.
  pose proof (Nat.div_mod_eq (length lst) B) as Hdm.
  pose proof (Nat.mod_upper_bound (length lst) B ltac:(lia)) as Hr.
  set (q := length lst / B) in *. set (r := length lst mod B) in *.
  destruct (chunks_shape q lst B r HB Hr ltac:(lia)) as (groups & Hc & Hcat & Hsz & Hnth).
  assert (length groups = q + (if decide (r = 0) then 0 else 1)) as Hlen.
  { rewrite <- (length_fmap length groups), Hsz, length_app, length_replicate.
    by destruct (decide (r = 0)). }
  exists groups. split_and!; try done.
  - intros k g Hk Hlt.
    assert ((length <$> groups) !! k = Some (length g)) as Hl
      by (by rewrite list_lookup_fmap, Hk).
    rewrite Hsz, lookup_app_l in Hl.
    + by apply lookup_replicate in Hl as [-> _].
    + rewrite length_replicate. destruct (decide (r = 0)); lia.
  - intros g Hg.
    assert (last (length <$> groups) = Some (length g)) as Hl
      by (by rewrite fmap_last, Hg).
    rewrite Hsz in Hl. destruct (decide (r = 0)) as [Hr0|Hr0].
    + rewrite app_nil_r in Hl. destruct q as [|q'].
      * simpl in Hl. done.
      * rewrite replicate_S_end, last_snoc in Hl. by injection Hl.
    + rewrite last_snoc in Hl. by injection Hl.
  - intros HN ->. rewrite Hsz. unfold q, r. rewrite HN. done.
Qed.

Lemma chunker_spec_witness :
  ∃ groups, chunker (seq 0 25) 10 = inl groups ∧ length <$> groups = [10; 10; 5].
Proof.
  destruct (chunker_spec (seq 0 25) 10 ltac:(lia)) as (groups & Hc & _ & _ & _ & _ & _ & Hex).
  exists groups. split; [done|]. by apply Hex.
Defined.

(** ** The listing pattern *)

Section Pattern.
Context `{UnicodeTables}.
Implicit Types (s t : pystr) (p : re.pattern) (k : bool → pystr → bool).

Lemma count_slash_app s t : count_slash (s ++ t) = count_slash s + count_slash t.
Proof. unfold count_slash. by rewrite filter_app, length_app. Qed.

Lemma count_slash_free s : slash ∉ s → count_slash s = 0.
Proof.
  intros Hs. unfold count_slash.
  induction s as [|c s IH]; [done|].
  rewrite filter_cons. case_decide; [set_solver|]. apply IH. set_solver.
Qed.

Lemma lit_slash c : re.lit_matches slash c = true → c = slash.
Proof. unfold re.lit_matches. simpl. by intros ?%bool_decide_eq_true. Qed.

Lemma greedy_loop_split p k :
  consumes p → ∀ n b s,
  (fix loop (n : nat) (b : bool) (s : pystr) {struct n} : bool :=
     match n with
     | O => k b s
     | S n' => if re.run p b s (λ b' s', loop n' b' s') then true else k b s
     end) n b s = true →
  ∃ b' s1 s2, s = s1 ++ s2 ∧ k b' s2 = true.
Proof.
  intros Hp. induction n as [|n IH]; intros b s Hrun.
  - exists b, [], s. done.
  - destruct (re.run p b s _) eqn:Hstep in Hrun; [|by exists b, [], s].
    apply Hp in Hstep as (b1 & s1 & s2 & -> & Hloop & _).
    apply IH in Hloop as (b2 & t1 & t2 & -> & Hk).
    exists b2, (s1 ++ t1), t2. by rewrite (assoc_L (++)).
Qed.

Lemma lazy_loop_split p k :
  consumes p → ∀ n b s,
  (fix loop (n : nat) (b : bool) (s : pystr) {struct n} : bool :=
     match n with
     | O => k b s
     | S n' => if k b s then true else re.run p b s (λ b' s', loop n' b' s')
     end) n b s = true →
  ∃ b' s1 s2, s = s1 ++ s2 ∧ k b' s2 = true.
Proof.
  intros Hp. induction n as [|n IH]; intros b s Hrun.
  - exists b, [], s. done.
  - destruct (k b s) eqn:Hnow in Hrun; [by exists b, [], s|].
    apply Hp in Hrun as (b1 & s1 & s2 & -> & Hloop & _).
    apply IH in Hloop as (b2 & t1 & t2 & -> & Hk).
    exists b2, (s1 ++ t1), t2. by rewrite (assoc_L (++)).
Qed.

(** Every match of a pattern has at least [min_slashes] slashes. *)
Lemma run_consumes p : consumes p.
Proof.
  induction p as [a| | |p IHp q IHq|p IHp|p IHp|p IHp|p IHp| |];
    intros b s k Hrun; simpl in Hrun.
  - destruct s as [|c s']; [done|].
    destruct (re.lit_matches a c) eqn:Hc; [|done]. rename Hrun into Hk.
    exists false, [c], s'. split_and!; [done..|].
    simpl. case_bool_decide as Ha; [|lia]. subst a.
    apply lit_slash in Hc as ->. done.
  - destruct s as [|c s']; [done|].
    destruct (re.dot_matches c); [|done].
    exists false, [c], s'. split_and!; [done..|simpl; lia].
  - destruct s as [|c s']; [done|].
    destruct (re.digit_matches c); [|done].
    exists false, [c], s'. split_and!; [done..|simpl; lia].
  - apply IHp in Hrun as (b1 & s1 & s2 & -> & Hq & Hn1).
    apply IHq in Hq as (b2 & t1 & t2 & -> & Hk & Hn2).
    exists b2, (s1 ++ t1), t2. rewrite (assoc_L (++)), count_slash_app.
    split_and!; [done..|simpl; lia].
  - destruct (re.run p b s k) eqn:Hp in Hrun.
    + apply IHp in Hp as (b1 & s1 & s2 & -> & Hk & _).
      exists b1, s1, s2. split_and!; [done..|simpl; lia].
    + exists b, [], s. split_and!; [done..|simpl; lia].
  - apply (greedy_loop_split p k IHp) in Hrun as (b1 & s1 & s2 & -> & Hk).
    exists b1, s1, s2. split_and!; [done..|simpl; lia].
  - apply IHp in Hrun as (b1 & s1 & s2 & -> & Hloop & Hn1).
    apply (greedy_loop_split p k IHp) in Hloop as (b2 & t1 & t2 & -> & Hk).
    exists b2, (s1 ++ t1), t2. rewrite (assoc_L (++)), count_slash_app.
    split_and!; [done..|simpl; lia].
  - apply IHp in Hrun as (b1 & s1 & s2 & -> & Hloop & Hn1).
    apply (lazy_loop_split p k IHp) in Hloop as (b2 & t1 & t2 & -> & Hk).
    exists b2, (s1 ++ t1), t2. rewrite (assoc_L (++)), count_slash_app.
    split_and!; [done..|simpl; lia].
  - destruct b; [|done].
    exists true, [], s. split_and!; [done..|simpl; lia].
  - destruct (_ || _) in Hrun; [|done].
    exists b, [], s. split_and!; [done..|simpl; lia].
Qed.

Lemma match_slashes p s : re.match_ p s = true → min_slashes p ≤ count_slash s.
Proof.
  intros (b & s1 & s2 & -> & _ & Hn)%run_consumes.
  rewrite count_slash_app. lia.
Qed.

(** A listing link has at least eight slashes. *)
Lemma listing_url_slashes href :
  re.match_ PROPERTY24_REGEX href = true → 8 ≤ count_slash href.
Proof. apply match_slashes. Qed.
End Pattern.

(** C4: the root-relative link [/for-sale/gauteng/region/town/123/456] is
    rewritten to [https://www.property24.com/for-sale/gauteng/region/town/123/456],
    which matches the listing pattern; the same link with only two path
    segments between [/for-sale/] and the two numbers does not match,
    whichever two segments they are. *)
Theorem listing_link_example `{UnicodeTables} :
  absolute (str "/for-sale/gauteng/region/town/123/456")
    = str "https://www.property24.com/for-sale/gauteng/region/town/123/456"
  ∧ re.match_ PROPERTY24_REGEX
      (str "https://www.property24.com/for-sale/gauteng/region/town/123/456") = true
  ∧ re.match_ PROPERTY24_REGEX
      (str "https://www.property24.com/for-sale/gauteng/region/123/456") = false
  ∧ re.match_ PROPERTY24_REGEX
      (str "https://www.property24.com/for-sale/gauteng/town/123/456") = false
  ∧ re.match_ PROPERTY24_REGEX
      (str "https://www.property24.com/for-sale/region/town/123/456") = false
  ∧ (∀ a b : pystr, slash ∉ a → slash ∉ b →
       re.match_ PROPERTY24_REGEX
         (str "https://www.property24.com/for-sale/" ++ a ++ str "/" ++ b
            ++ str "/123/456") = false).
Proof.
  split_and!; try by vm_compute.
  intros a b Ha Hb. apply not_true_is_false. intros Hm%listing_url_slashes.
  rewrite !count_slash_app, (count_slash_free a), (count_slash_free b) in Hm by done.
  vm_compute in Hm. lia.
Qed.

Lemma listing_link_example_witness :
  @re.match_ ascii_only PROPERTY24_REGEX
    (str "https://www.property24.com/for-sale/" ++ str "sandton" ++ str "/"
       ++ str "bryanston" ++ str "/123/456") = false.
Proof.
  apply (listing_link_example (H := ascii_only));
    by apply (bool_decide_eq_false_1 (slash ∈ _)); vm_compute.
Defined.

(** ** [extract_listing_data] *)

(** Two different ASCII literals. *)
Ltac str_neq :=
  let E := fresh "E" in intros E; vm_compute in E; discriminate E.

(** Settle the tests of a key against literal field names. *)
Ltac str_cases :=
  repeat match goal with
    | |- context [bool_decide (?a = ?b)] =>
        first [ rewrite (bool_decide_eq_true_2 (a = b)) by (done || reflexivity)
              | rewrite (bool_decide_eq_false_2 (a = b)) by (done || str_neq) ]
    end.

(** Look a key up through the assignments of the record. *)
Ltac look_through :=
  repeat first
    [ rewrite lookup_insert_eq
    | rewrite lookup_insert_ne by (done || str_neq || (apply not_eq_sym; done)) ].

Section SplitFacts.
Implicit Types (l r text : pystr).

Lemma split_first_app sep l r :
  sep ∉ l → split_first sep (l ++ sep :: r) = (l, r).
Proof.
  induction l as [|c l IH]; intros Hl; simpl.
  - by rewrite bool_decide_eq_true_2.
  - rewrite bool_decide_eq_false_2 by set_solver.
    rewrite IH by set_solver. done.
Qed.

Lemma contains_app sep l r : contains sep (l ++ sep :: r) = true.
Proof. unfold contains. apply bool_decide_eq_true_2. set_solver. Qed.

Lemma join_nil_concat (parts : list pystr) : join [] parts = concat parts.
Proof.
  induction parts as [|p [|q ps] IH]; simpl in *; [done| |].
  - by rewrite app_nil_r.
  - by rewrite IH.
Qed.

(** [get_text(strip=True)] is trimmed. *)
Lemma strip_concat_stripped (parts : list pystr) :
  Forall (λ p, p ≠ [] ∧ strip p = p) parts → strip (concat parts) = concat parts.
Proof.
  intros Hparts. destruct parts as [|p ps]; [done|].
  apply Forall_cons in Hparts as [[Hp Hsp] Hps].
  apply strip_fixed in Hsp as [Hl Hr].
  simpl. unfold strip. rewrite lstrip_app_fixed by done.
  induction ps as [|q ps IH] using rev_ind.
  - simpl. by rewrite app_nil_r.
  - apply Forall_app in Hps as [Hps [[Hq Hsq] _]%Forall_cons_1].
    apply strip_fixed in Hsq as [_ Hrq].
    rewrite concat_app. simpl. rewrite app_nil_r, (assoc_L (++)).
    by apply rstrip_app_fixed.
Qed.

Lemma get_text_stripped (t : Tag) : strip (get_text [] t) = get_text [] t.
Proof.
  unfold get_text. rewrite join_nil_concat. apply strip_concat_stripped.
  apply Forall_forall. intros p [Hp [q [-> _]]%list_elem_of_fmap]%list_elem_of_filter.
  split; [done|]. apply strip_idemp.
Qed.
End SplitFacts.

Section ExtractionFacts.
Context `{UnicodeTables}.
Implicit Types (soup : Soup) (data : record) (k : pystr) (item : Tag).

Lemma promotion_Some item kv :
  promotion item = Some kv → contains colon (feature_text item) = true.
Proof. unfold promotion. by destruct (contains colon (feature_text item)). Qed.

Lemma promotion_None item :
  promotion item = None → contains colon (feature_text item) = false.
Proof. unfold promotion. by destruct (contains colon (feature_text item)). Qed.

Lemma feature_step_promotion st item :
  feature_step st item =
    match promotion item with
    | Some kv => (<[kv.1 := VStr kv.2]> st.1, st.2)
    | None => (st.1, st.2 ++ [feature_text item])
    end.
Proof.
  unfold feature_step, promotion, feature_text.
  destruct (contains colon (get_text [] item)); [|done].
  by destruct (split_first colon (get_text [] item)).
Qed.

Lemma foldl_feature_step items : ∀ data fs,
  foldl feature_step (data, fs) items =
    (promote_all data (omap promotion items),
     fs ++ filter (λ t, contains colon t = false) (feature_text <$> items)).
Proof.
  induction items as [|item items IH]; intros data fs.
  - simpl. by rewrite app_nil_r.
  - rewrite fmap_cons, filter_cons. cbn [foldl].
    change (omap promotion (item :: items)) with
      (match promotion item with
       | Some kv => kv :: omap promotion items
       | None => omap promotion items
       end).
    rewrite feature_step_promotion.
    destruct (promotion item) as [kv|] eqn:Hp; rewrite IH; cbn [fst snd].
    + rewrite decide_False; [done|].
      by rewrite (promotion_Some _ _ Hp).
    + rewrite decide_True by (by apply promotion_None).
      by rewrite <- (assoc_L (++)).
Qed.

Lemma feature_loop_spec soup data :
  feature_loop soup data = (promote_all data (promotions soup), plain_features soup).
Proof. unfold feature_loop. by rewrite foldl_feature_step. Qed.

Lemma promote_all_lookup kvs : ∀ data k,
  promote_all data kvs !! k =
    match last (snd <$> filter (λ kv, kv.1 = k) kvs) with
    | Some v => Some (VStr v)
    | None => data !! k
    end.
Proof.
  induction kvs as [|kv kvs IH] using rev_ind; intros data k; [done|].
  unfold promote_all in *. rewrite foldl_snoc, filter_app, fmap_app.
  rewrite filter_cons, filter_nil.
  case_decide as Hk.
  - subst k. by rewrite fmap_cons, fmap_nil, last_snoc, lookup_insert_eq.
  - rewrite fmap_nil, app_nil_r, lookup_insert_ne by done. apply IH.
Qed.

Lemma set_crumb_lookup soup key i data k :
  set_crumb soup key i data !! k =
    if decide (k = key)
    then match crumbs soup !! i with
         | Some c => Some (VStr c)
         | None => data !! k
         end
    else data !! k.
Proof.
  unfold set_crumb. destruct (crumbs soup !! i) as [c|]; case_decide; subst.
  - by rewrite lookup_insert_eq.
  - by rewrite lookup_insert_ne.
  - done.
  - done.
Qed.

(** The returned record, key by key: the fields assigned after the loop
    hold what their rules give; a location level its rule leaves out, and
    every other key, holds the value of the last promotion to it, or
    else what the rules of price, size and description gave. *)
Local Ltac key_cases :=
  repeat match goal with
    | |- context [decide (?a = ?b)] =>
        first [ rewrite (decide_True (P := a = b)) by (done || reflexivity)
              | rewrite (decide_False (P := a = b))
                  by (done || str_neq || (apply not_eq_sym; done)) ]
    end.

Local Ltac mem_cases :=
  repeat match goal with
    | |- context [bool_decide (?x ∈ ?l)] =>
        let b := eval vm_compute in (bool_decide (x ∈ l)) in
        change (bool_decide (x ∈ l)) with b
    end.

Local Ltac field_case :=
  str_cases; mem_cases; key_cases; look_through;
  repeat (match goal with
          | |- context [crumbs ?s !! ?i] => destruct (crumbs s !! i)
          | |- context [promoted ?s ?f] => destruct (promoted s f)
          end; cbn [fmap option_fmap option_map]).

Lemma extract_lookup soup k :
  extract_listing_data soup !! k =
    if bool_decide (k ∈ [str "features"; str "address"; str "ListingNo";
                         str "image_url"])
    then own_rule soup k
    else match own_rule soup k, promoted soup k with
         | Some v, None => Some v
         | Some v, Some p =>
             if bool_decide (k ∈ [str "Province"; str "City"; str "Town"])
             then Some v else Some (VStr p)
         | None, Some p => Some (VStr p)
         | None, None => None
         end.
Proof.
  unfold extract_listing_data. rewrite feature_loop_spec.
  set (base := <[str "description" := _]> (<[str "size" := _]> (<[str "price" := _]> ∅))).
  assert (promote_all base (promotions soup) !! k =
          match promoted soup k with
          | Some p => Some (VStr p)
          | None => base !! k
          end) as Hearly by apply promote_all_lookup.
  set (early := promote_all base (promotions soup)) in *. clearbody early.
  rewrite !lookup_insert, !set_crumb_lookup, !lookup_insert, Hearly.
  unfold base, own_rule. clear Hearly early base.
  destruct (decide (k = str "image_url")) as [->|?]; [by field_case|].
  destruct (decide (k = str "ListingNo")) as [->|?]; [by field_case|].
  destruct (decide (k = str "Town")) as [->|?]; [by field_case|].
  destruct (decide (k = str "City")) as [->|?]; [by field_case|].
  destruct (decide (k = str "Province")) as [->|?]; [by field_case|].
  destruct (decide (k = str "address")) as [->|?]; [by field_case|].
  destruct (decide (k = str "features")) as [->|?]; [by field_case|].
  destruct (decide (k = str "description")) as [->|?]; [by field_case|].
  destruct (decide (k = str "size")) as [->|?]; [by field_case|].
  destruct (decide (k = str "price")) as [->|?]; [by field_case|].
  str_cases; key_cases.
  rewrite !bool_decide_eq_false_2
    by (rewrite !not_elem_of_cons; split_and!; (done || apply not_elem_of_nil)).
  rewrite !lookup_insert_ne by (apply not_eq_sym; done).
  rewrite lookup_empty. by destruct (promoted soup k).
Qed.
End ExtractionFacts.

Section RecordFacts.
Context `{UnicodeTables}.
Implicit Types (soup : Soup) (k : pystr) (item : Tag).

Lemma promotion_split item l r :
  feature_text item = l ++ colon :: r → colon ∉ l →
  promotion item = Some (strip l, strip r).
Proof.
  intros Htext Hl. unfold promotion.
  by rewrite Htext, contains_app, split_first_app.
Qed.

Lemma contains_false sep (s : pystr) : contains sep s = false ↔ sep ∉ s.
Proof. unfold contains. apply bool_decide_eq_false. Qed.

Lemma plain_features_alt soup :
  plain_features soup =
    filter (λ t, colon ∉ t)
      (feature_text <$> find_all soup (str "p24_listingFeatures")).
Proof. apply list_filter_iff. intros t. apply contains_false. Qed.

Lemma promoted_last soup before item after kv :
  find_all soup (str "p24_listingFeatures") = before ++ item :: after →
  promotion item = Some kv →
  (∀ item' kv', item' ∈ after → promotion item' = Some kv' → kv'.1 ≠ kv.1) →
  promoted soup kv.1 = Some kv.2.
Proof.
  intros Hall Hp Hafter. unfold promoted, promotions.
  rewrite Hall, omap_app.
  change (omap promotion (item :: after)) with
    (match promotion item with
     | Some y => y :: omap promotion after
     | None => omap promotion after
     end).
  rewrite Hp, filter_app, filter_cons, decide_True by done.
  assert (filter (λ kv', kv'.1 = kv.1) (omap promotion after) = []) as ->.
  { destruct (filter _ (omap promotion after)) as [|kv' rest] eqn:Hf; [done|].
    assert (kv' ∈ filter (λ kv', kv'.1 = kv.1) (omap promotion after)) as Hin
      by (rewrite Hf; left).
    apply list_elem_of_filter in Hin as [Hkey (item' & Hin & Hp')%list_elem_of_omap].
    by destruct (Hafter item' kv' Hin Hp'). }
  by rewrite fmap_app, fmap_cons, fmap_nil, last_snoc.
Qed.

Lemma promoted_is_Some soup item kv :
  item ∈ find_all soup (str "p24_listingFeatures") →
  promotion item = Some kv →
  is_Some (promoted soup kv.1).
Proof.
  intros Hin Hp. unfold promoted.
  assert (kv.2 ∈ (filter (λ kv', kv'.1 = kv.1) (promotions soup)).*2) as Hmem.
  { apply list_elem_of_fmap. exists kv. split; [done|].
    apply list_elem_of_filter. split; [done|].
    apply list_elem_of_omap. by exists item. }
  destruct (filter _ _).*2 as [|v vs] using rev_ind.
  - by apply elem_of_nil in Hmem.
  - rewrite last_snoc. by eexists.
Qed.

Lemma own_rule_late_is_Some soup k :
  k ∈ [str "features"; str "address"; str "ListingNo"; str "image_url"] →
  is_Some (own_rule soup k).
Proof.
  rewrite !elem_of_cons, elem_of_nil.
  intros [->|[->|[->|[->|[]]]]]; unfold own_rule; str_cases; by eexists.
Qed.

Lemma extract_promoted_is_Some soup k :
  is_Some (promoted soup k) → is_Some (extract_listing_data soup !! k).
Proof.
  intros [p Hp]. rewrite extract_lookup, Hp.
  case_bool_decide as Hlate; [by apply own_rule_late_is_Some|].
  destruct (own_rule soup k); [|by eexists].
  case_bool_decide; by eexists.
Qed.

Lemma extract_unpromoted soup k :
  promoted soup k = None → extract_listing_data soup !! k = own_rule soup k.
Proof.
  intros Hp. rewrite extract_lookup, Hp.
  case_bool_decide; [done|]. by destruct (own_rule soup k).
Qed.

Lemma late_fields_split k :
  k ∈ late_fields ↔
    k ∈ [str "features"; str "address"; str "ListingNo"; str "image_url"]
    ∨ k ∈ [str "Province"; str "City"; str "Town"].
Proof. unfold late_fields. rewrite !elem_of_cons, !elem_of_nil. tauto. Qed.

Lemma extract_late soup k v :
  k ∈ late_fields → own_rule soup k = Some v →
  extract_listing_data soup !! k = Some v.
Proof.
  intros Hk Hv. rewrite extract_lookup, Hv.
  case_bool_decide as H4; [done|].
  destruct (promoted soup k); [|done].
  rewrite bool_decide_eq_true_2; [done|].
  by apply late_fields_split in Hk as [?|?].
Qed.

Lemma extract_early_promoted soup k p :
  k ∉ late_fields → promoted soup k = Some p →
  extract_listing_data soup !! k = Some (VStr p).
Proof.
  intros Hk Hp. rewrite extract_lookup, Hp.
  rewrite bool_decide_eq_false_2
    by (intros ?; apply Hk, late_fields_split; by left).
  destruct (own_rule soup k); [|done].
  rewrite bool_decide_eq_false_2
    by (intros ?; apply Hk, late_fields_split; by right).
  done.
Qed.

Lemma own_rule_with_price soup price_elem k :
  k ≠ str "price" → own_rule (with_price soup price_elem) k = own_rule soup k.
Proof.
  intros Hk. unfold own_rule. rewrite (bool_decide_eq_false_2 (k = str "price")) by done.
  unfold size_rule, description_rule, desc_elem, address_rule.
  cbn [find with_price]. str_cases. done.
Qed.
End RecordFacts.

(** C8: one turn of the loop over the feature elements.  A text with a
    colon has a first colon, and stores the trimmed text left of the first colon as a key of the
    record, with the trimmed text right of it as value, and leaves the list
    of features alone; a text without a colon, which is already trimmed, is
    appended to the list.  In the returned record the list of features is
    the colon-free texts in document order; every promoted key is a key of
    the record, and it holds the value of its feature element unless a
    later promotion or a field assigned after the loop has the same key. *)
Theorem feature_elements_spec `{UnicodeTables} (soup : Soup) :
  (∀ item, colon ∈ feature_text item →
     ∃ l r, feature_text item = l ++ colon :: r ∧ colon ∉ l)
  ∧ (∀ data features item l r,
     feature_text item = l ++ colon :: r → colon ∉ l →
     feature_step (data, features) item
       = (<[strip l := VStr (strip r)]> data, features))
  ∧ (∀ data features item,
       colon ∉ feature_text item →
       feature_step (data, features) item = (data, features ++ [feature_text item])
       ∧ strip (feature_text item) = feature_text item)
  ∧ extract_listing_data soup !! str "features"
      = Some (VList (filter (λ t, colon ∉ t)
                       (feature_text <$> find_all soup (str "p24_listingFeatures"))))
  ∧ (∀ item l r,
       item ∈ find_all soup (str "p24_listingFeatures") →
       feature_text item = l ++ colon :: r → colon ∉ l →
       is_Some (extract_listing_data soup !! strip l))
  ∧ (∀ before item after l r,
       find_all soup (str "p24_listingFeatures") = before ++ item :: after →
       feature_text item = l ++ colon :: r → colon ∉ l →
       (∀ item' kv, item' ∈ after → promotion item' = Some kv → kv.1 ≠ strip l) →
       strip l ∉ late_fields →
       extract_listing_data soup !! strip l = Some (VStr (strip r))).
Proof.
  split_and!.
  - intros item Hcolon. by apply list_elem_of_split_l.
  - intros data features item l r Htext Hl.
    by rewrite feature_step_promotion, (promotion_split item l r).
  - intros data features item Hno. split; [|apply get_text_stripped].
    rewrite feature_step_promotion. unfold promotion.
    by rewrite (proj2 (contains_false _ _) Hno).
  - rewrite <- plain_features_alt. apply (extract_late soup (str "features")).
    + by apply (bool_decide_unpack _); vm_compute.
    + unfold own_rule. by str_cases.
  - intros item l r Hin Htext Hl. apply extract_promoted_is_Some.
    apply (promoted_is_Some soup item (strip l, strip r)); [done|].
    by apply promotion_split.
  - intros before item after l r Hall Htext Hl Hafter Hlate.
    apply extract_early_promoted; [done|].
    apply (promoted_last soup before item after (strip l, strip r)); [done| |done].
    by apply promotion_split.
Qed.

Lemma feature_elements_spec_witness :
  feature_step (∅, []) (text_tag (str " Erf Size : 500 m "))
    = (<[str "Erf Size" := VStr (str "500 m")]> ∅, [])
  ∧ feature_step (∅, []) (text_tag (str " Pool ")) = (∅, [str "Pool"])
  ∧ @extract_listing_data ascii_only
      (page None [text_tag (str "Erf Size: 500 m"); text_tag (str "Pool")])
      !! str "Erf Size" = Some (VStr (str "500 m")).
Proof.
  pose proof (feature_elements_spec (H := ascii_only)
    (page None [text_tag (str "Erf Size: 500 m"); text_tag (str "Pool")]))
    as (_ & Hkv & Hplain & _ & _ & Hlast).
  split_and!.
  - apply (Hkv ∅ [] _ (str "Erf Size ") (str " 500 m")); [by vm_compute|].
    by apply (bool_decide_eq_false_1 (colon ∈ _)); vm_compute.
  - apply (Hplain ∅ [] (text_tag (str " Pool "))).
    by apply (bool_decide_eq_false_1 (colon ∈ _)); vm_compute.
  - apply (Hlast [] (text_tag (str "Erf Size: 500 m")) [text_tag (str "Pool")]
             (str "Erf Size") (str " 500 m")).
    + by vm_compute.
    + by vm_compute.
    + by apply (bool_decide_eq_false_1 (colon ∈ _)); vm_compute.
    + intros item' kv ->%list_elem_of_singleton Hp. by vm_compute in Hp.
    + by apply (bool_decide_eq_false_1 (_ ∈ _)); vm_compute.
Defined.

(** C9: a promoted key equal to [price], [size] or [description] replaces
    the value extracted for that field by the value of the last feature
    element with that key; a field no feature element is promoted to holds
    what its own rule gives. *)
Theorem promoted_key_overwrites `{UnicodeTables} (soup : Soup) :
  (∀ field v,
     field ∈ [str "price"; str "size"; str "description"] →
     promoted soup field = Some v →
     extract_listing_data soup !! field = Some (VStr v)
     ∧ own_rule soup field
         = Some (VStr (if bool_decide (field = str "price") then price_rule soup
                       else if bool_decide (field = str "size") then size_rule soup
                       else description_rule soup)))
  ∧ (∀ field,
       promoted soup field = None →
       extract_listing_data soup !! field = own_rule soup field).
Proof.
  split.
  - intros field v Hfield Hp. split.
    + apply extract_early_promoted; [|done].
      rewrite !elem_of_cons, elem_of_nil in Hfield.
      destruct Hfield as [->|[->|[->|[]]]];
        by apply (bool_decide_eq_false_1 (_ ∈ _)); vm_compute.
    + rewrite !elem_of_cons, elem_of_nil in Hfield.
      destruct Hfield as [->|[->|[->|[]]]]; unfold own_rule; by str_cases.
  - intros field. apply extract_unpromoted.
Qed.

Lemma promoted_key_overwrites_witness :
  @extract_listing_data ascii_only
    (page (Some (text_tag (str "R 2 000 000"))) [text_tag (str "price: POA")])
    !! str "price" = Some (VStr (str "POA"))
  ∧ @extract_listing_data ascii_only
      (page (Some (text_tag (str "R 2 000 000"))) [text_tag (str "Pool")])
      !! str "price" = Some (VStr (str "R 2 000 000")).
Proof.
  split.
  - apply (promoted_key_overwrites (H := ascii_only)); [|by vm_compute].
    by apply (bool_decide_unpack _); vm_compute.
  - rewrite (proj2 (promoted_key_overwrites (H := ascii_only) _));
      by vm_compute.
Defined.

(** C7, as the code has it: on a page without a price element the price
    field is the string [None] unless a feature element is promoted to the
    key [price]; the fields assigned after the loop hold what their rules
    give, size and description do so unless a feature element is promoted
    to their key; and no key other than [price] depends on the price
    element. *)
Theorem missing_price_spec `{UnicodeTables} (soup : Soup) :
  find soup (str "p24_price") = None →
  (promoted soup (str "price") = None →
     extract_listing_data soup !! str "price" = Some (VStr (str "None")))
  ∧ (∀ field v,
       field ∈ [str "features"; str "address"; str "Province"; str "City";
                str "Town"; str "ListingNo"; str "image_url"] →
       own_rule soup field = Some v →
       extract_listing_data soup !! field = Some v)
  ∧ (∀ field,
       field ∈ [str "size"; str "description"] →
       promoted soup field = None →
       extract_listing_data soup !! field = own_rule soup field)
  ∧ (∀ price_elem k,
       k ≠ str "price" →
       extract_listing_data (with_price soup price_elem) !! k
         = extract_listing_data soup !! k).
Proof.
  intros Hprice. split_and!.
  - intros Hp. rewrite extract_unpromoted by done.
    unfold own_rule, price_rule. str_cases. by rewrite Hprice.
  - intros field v. apply extract_late.
  - intros field _. apply extract_unpromoted.
  - intros price_elem k Hk.
    rewrite !extract_lookup, own_rule_with_price by done. done.
Qed.

Lemma missing_price_spec_witness :
  @extract_listing_data ascii_only (page None [text_tag (str "Pool")])
    !! str "price" = Some (VStr (str "None")).
Proof.
  destruct (missing_price_spec (H := ascii_only)
              (page None [text_tag (str "Pool")])) as [Hprice _];
    [by vm_compute|].
  apply Hprice. by vm_compute.
Defined.

(** C7 as the specification words it fails: the page below has no price
    element, and the price field of its record is not the string [None]. *)
Lemma missing_price_counterexample :
  find (page None [text_tag (str "price: POA")]) (str "p24_price") = None
  ∧ @extract_listing_data ascii_only (page None [text_tag (str "price: POA")])
      !! str "price" = Some (VStr (str "POA"))
  ∧ @extract_listing_data ascii_only (page None [text_tag (str "price: POA")])
      !! str "price" ≠ Some (VStr (str "None")).
Proof. split_and!; by vm_compute. Qed.

(** ** Computations on the globals *)

Section MonadFacts.
Implicit Types (g : Globals).

Lemma bind_inl {A B} (m : M A) (f : A → M B) g a g' :
  m g = (inl a, g') → (m ≫= f) g = f a g'.
Proof. intros Hm. unfold mbind, M_bind. by rewrite Hm. Qed.

Lemma bind_inr {A B} (m : M A) (f : A → M B) g e g' :
  m g = (inr e, g') → (m ≫= f) g = (inr e, g').
Proof. intros Hm. unfold mbind, M_bind. by rewrite Hm. Qed.

Lemma bind_ret {A B} (a : A) (f : A → M B) g : (mret a ≫= f) g = f a g.
Proof. done. Qed.

Lemma total_ret {A} (a : A) : total (mret a : M A).
Proof. intros g. by exists a, g. Qed.

Lemma total_bind {A B} (m : M A) (f : A → M B) :
  total m → (∀ a, total (f a)) → total (m ≫= f).
Proof.
  intros Hm Hf g. destruct (Hm g) as (a & g1 & Ha).
  destruct (Hf a g1) as (b & g2 & Hb). exists b, g2.
  by rewrite (bind_inl _ _ _ _ _ Ha).
Qed.

(** [except Exception] catches what the body raises when that is an
    instance of [Exception]. *)
Lemma try_except_catch {A} (body : M A) (handler : exn → M A) g :
  (∀ e g', body g = (inr e, g') → is_Exception e = true) →
  try_except body handler g
    = match body g with
      | (inl a, g') => (inl a, g')
      | (inr e, g') => handler e g'
      end.
Proof.
  intros Hbody. unfold try_except.
  destruct (body g) as [[a|e] g1]; [done|]. by rewrite (Hbody e g1).
Qed.

(** What is no instance of [Exception] passes through the handler. *)
Lemma try_except_escape {A} (body : M A) (handler : exn → M A) g e g' :
  body g = (inr e, g') → is_Exception e = false →
  try_except body handler g = (inr e, g').
Proof. intros Hbody He. unfold try_except. by rewrite Hbody, He. Qed.

(** A handler that returns makes the whole statement return, when the
    body raises nothing but instances of [Exception]. *)
Lemma total_try_except {A} (body : M A) (handler : exn → M A) :
  raises_Exception body →
  (∀ e, total (handler e)) → total (try_except body handler).
Proof.
  intros Hbody Hh g. rewrite try_except_catch by apply Hbody.
  destruct (body g) as [[a|e] g1]; [by exists a, g1|apply Hh].
Qed.

Lemma raises_Exception_ret {A} (a : A) : raises_Exception (mret a : M A).
Proof. by intros g e g'. Qed.

Lemma raises_Exception_bind {A B} (m : M A) (f : A → M B) :
  raises_Exception m → (∀ a, raises_Exception (f a)) →
  raises_Exception (m ≫= f).
Proof.
  intros Hm Hf g e g'. unfold mbind, M_bind.
  destruct (m g) as [[a|e1] g1] eqn:Hmg.
  - apply Hf.
  - intros [= <- <-]. by eapply Hm.
Qed.

Lemma raises_Exception_for_each {A B} (xs : list A) (body : B → A → M B) :
  (∀ acc x, raises_Exception (body acc x)) →
  ∀ acc, raises_Exception (for_each xs acc body).
Proof.
  intros Hbody. induction xs as [|x xs IH]; intros acc; simpl.
  - apply raises_Exception_ret.
  - apply raises_Exception_bind; [apply Hbody|apply IH].
Qed.

Lemma total_for_each {A B} (xs : list A) (body : B → A → M B) :
  (∀ acc x, total (body acc x)) → ∀ acc, total (for_each xs acc body).
Proof.
  intros Hbody. induction xs as [|x xs IH]; intros acc; simpl.
  - apply total_ret.
  - apply total_bind; [apply Hbody|apply IH].
Qed.
End MonadFacts.

(** ** The reservations *)

Section ReserveFacts.
Context `{UnicodeTables}.
Implicit Types (g : Globals) (href : pystr).

(** The two outcomes of a reservation. *)
Lemma reserve_url_cases href g :
  (reserve_url href g
     = (inl true, {| scraped_links := {[href]} ∪ scraped_links g;
                     listing_nums := listing_nums g;
                     data_bun := data_bun g |})
   ∧ re.match_ PROPERTY24_REGEX href = true ∧ href ∉ scraped_links g)
  ∨ (reserve_url href g = (inl false, g)
     ∧ (re.match_ PROPERTY24_REGEX href = false ∨ href ∈ scraped_links g)).
Proof.
  unfold reserve_url, mbind, M_bind, get_globals.
  destruct (re.match_ PROPERTY24_REGEX href) eqn:Hm; simpl.
  - case_bool_decide as Hin; simpl.
    + left. done.
    + right. split; [done|]. right.
      by destruct (decide (href ∈ scraped_links g)).
  - right. split; [done|]. by left.
Qed.

Lemma reserve_url_spec href g :
  ∃ b g', reserve_url href g = (inl b, g')
    ∧ scraped_links g ⊆ scraped_links g'
    ∧ listing_nums g' = listing_nums g ∧ data_bun g' = data_bun g
    ∧ (b = true →
         (href ∉ scraped_links g)
         ∧ scraped_links g' = {[href]} ∪ scraped_links g)
    ∧ (b = false → g' = g).
Proof.
  destruct (reserve_url_cases href g) as [(Hr & _ & Hnot)|(Hr & _)].
  - eexists _, _. split; [exact Hr|]. simpl. split_and!; try done.
    apply union_subseteq_r.
  - exists false, g. split; [exact Hr|]. split_and!; done.
Qed.

Lemma reserve_all_spec hrefs : ∀ g,
  ∃ answers g',
    reserve_all hrefs g = (inl answers, g')
    ∧ length answers = length hrefs
    ∧ scraped_links g ⊆ scraped_links g'
    ∧ (∀ j B, hrefs !! j = Some B → answers !! j = Some true →
         absolute B ∉ scraped_links g)
    ∧ (∀ i j A B, i < j → hrefs !! i = Some A → hrefs !! j = Some B →
         answers !! i = Some true → answers !! j = Some true →
         absolute A ≠ absolute B).
Proof.
  induction hrefs as [|href hrefs IH]; intros g.
  - exists [], g. split_and!; done.
  - destruct (reserve_url_spec (absolute href) g)
      as (b & g1 & Hb & Hsub1 & _ & _ & Htrue & _).
    destruct (IH g1) as (bs & g' & Hbs & Hlen & Hsub & Hfresh & Hpair).
    exists (b :: bs), g'. split_and!.
    + simpl. rewrite (bind_inl _ _ _ _ _ Hb), (bind_inl _ _ _ _ _ Hbs). done.
    + simpl. by rewrite Hlen.
    + by etrans.
    + intros [|j] B HB Hj; simplify_eq/=.
      * by apply Htrue.
      * intros Hin. by apply (Hfresh j B HB Hj), Hsub1.
    + intros [|i] [|j] A B Hij HA HB Hi Hj; simplify_eq/=; try lia.
      * destruct (Htrue eq_refl) as [_ Hg1].
        intros Heq. apply (Hfresh j B HB Hj). rewrite <- Heq, Hg1.
        apply elem_of_union_l. by apply elem_of_singleton.
      * apply (Hpair i j); [lia|done..].
Qed.
End ReserveFacts.

(** ** The tasks *)

Section TaskFacts.
Context `{UnicodeTables} `{Collaborators}.
Implicit Types (g : Globals) (url href : pystr) (links : gset pystr).

Lemma link_step_spec links a g :
  match link_step links a g with
  | (inl links', g') =>
      (∀ x, x ∈ links' → x ∈ links ∨ ((x ∉ scraped_links g) ∧ (x ∈ scraped_links g')))
      ∧ scraped_links g ⊆ scraped_links g'
      ∧ listing_nums g' = listing_nums g ∧ data_bun g' = data_bun g
  | (inr _, g') => g' = g
  end.
Proof.
  unfold link_step, tag_getitem.
  destruct (tag_attrs a !! str "href") as [href|]; [|done].
  rewrite bind_ret.
  destruct (reserve_url_spec (absolute href) g)
    as (b & g' & Hb & Hsub & Hnums & Hbun & Htrue & Hfalse).
  rewrite (bind_inl _ _ _ _ _ Hb). cbn.
  split_and!; [|done..]. intros x Hx. destruct b.
  - destruct (Htrue eq_refl) as [Hnot Hg'].
    apply elem_of_union in Hx as [->%elem_of_singleton|Hx]; [|by left].
    right. split; [done|]. rewrite Hg'.
    apply elem_of_union_l. by apply elem_of_singleton.
  - by left.
Qed.

Lemma scan_links_spec anchors : ∀ links g,
  match for_each anchors links link_step g with
  | (inl links', g') =>
      (∀ x, x ∈ links' → x ∈ links ∨ ((x ∉ scraped_links g) ∧ (x ∈ scraped_links g')))
      ∧ scraped_links g ⊆ scraped_links g'
      ∧ listing_nums g' = listing_nums g ∧ data_bun g' = data_bun g
  | (inr _, g') =>
      scraped_links g ⊆ scraped_links g'
      ∧ listing_nums g' = listing_nums g ∧ data_bun g' = data_bun g
  end.
Proof.
  induction anchors as [|a anchors IH]; intros links g; simpl.
  - split_and!; try done. intros x Hx. by left.
  - pose proof (link_step_spec links a g) as Hstep.
    destruct (link_step links a g) as [[links1|e] g1] eqn:Hl.
    + rewrite (bind_inl _ _ _ _ _ Hl).
      destruct Hstep as (Hfresh1 & Hsub1 & Hnums1 & Hbun1).
      specialize (IH links1 g1).
      destruct (for_each anchors links1 link_step g1) as [[links2|e] g2].
      * destruct IH as (Hfresh2 & Hsub2 & Hnums2 & Hbun2).
        split_and!; [|by etrans|congruence..].
        intros x Hx. destruct (Hfresh2 x Hx) as [Hx1|[Hnot Hin]].
        -- destruct (Hfresh1 x Hx1) as [?|[Hnot Hin]]; [by left|].
           right. split; [done|]. by apply Hsub2.
        -- right. split; [|done]. intros Hg. by apply Hnot, Hsub1.
      * destruct IH as (Hsub2 & Hnums2 & Hbun2).
        split_and!; [by etrans|congruence..].
    + rewrite (bind_inr _ _ _ _ _ Hl). subst g1. done.
Qed.

(** The loop over the anchors raises nothing but a [KeyError]. *)
Lemma link_step_raises links a : raises_Exception (link_step links a).
Proof.
  intros g e g'. unfold link_step, tag_getitem.
  destruct (tag_attrs a !! str "href") as [href|].
  - rewrite bind_ret.
    destruct (reserve_url_spec (absolute href) g) as (b & g1 & Hb & _).
    by rewrite (bind_inl _ _ _ _ _ Hb).
  - by intros [= <- <-].
Qed.

Lemma scan_links_raises anchors links :
  raises_Exception (for_each anchors links link_step).
Proof. apply raises_Exception_for_each, link_step_raises. Qed.

(** The outcomes of a page task: what the fetch or the parser raise is
    caught when it is an instance of [Exception] and escapes when it is
    not; a status outside the accepted range is caught; a page that
    parses is scanned for links. *)
Lemma async_scrape_page_outcome url g :
  match session_get url with
  | inr e =>
      async_scrape_page url g = if is_Exception e then (inl [], g) else (inr e, g)
  | inl r =>
      if bool_decide (200 ≤ status_code r < 400)%Z then
        match BeautifulSoup (text r) with
        | inr e =>
            async_scrape_page url g
              = if is_Exception e then (inl [], g) else (inr e, g)
        | inl soup =>
            async_scrape_page url g
              = match for_each (select soup (str "a[href]")) ∅ link_step g with
                | (inl links, g') => (inl (elements links), g')
                | (inr _, g') => (inl [], g')
                end
        end
      else async_scrape_page url g = (inl [], g)
  end.
Proof.
  destruct (session_get url) as [r|e] eqn:Hget.
  2: { unfold async_scrape_page, try_except, mbind, M_bind, lift.
       by rewrite Hget. }
  destruct (decide (200 ≤ status_code r < 400)%Z) as [Hok|Hbad].
  2: { rewrite bool_decide_eq_false_2 by done.
       unfold async_scrape_page, try_except, mbind, M_bind, lift, raise_for_status.
       by rewrite Hget, bool_decide_eq_false_2. }
  rewrite bool_decide_eq_true_2 by done.
  destruct (BeautifulSoup (text r)) as [soup|e] eqn:Hparse;
    unfold async_scrape_page, try_except, mbind, M_bind, lift, raise_for_status;
    rewrite Hget, bool_decide_eq_true_2 by done; cbn [mret M_ret];
    rewrite Hparse; [|done].
  pose proof (scan_links_raises (select soup (str "a[href]")) ∅ g) as Hraises.
  destruct (for_each _ ∅ link_step g) as [[links|e] g']; [done|].
  by rewrite (Hraises e g').
Qed.

(** The outcomes of the test under [listing_nums_lock]. *)
Lemma reserve_listing_cases (d : record) g :
  match d !! str "ListingNo" with
  | None => reserve_listing d g = (inr (KeyError (str "ListingNo")), g)
  | Some no =>
      if bool_decide (no = VStr (str "None")) then
        reserve_listing d g = (inl (Some d), g)
      else if bool_decide (no ∈ listing_nums g) then
        reserve_listing d g = (inl None, g)
      else
        reserve_listing d g
          = (inl (Some d), {| scraped_links := scraped_links g;
                              listing_nums := {[no]} ∪ listing_nums g;
                              data_bun := data_bun g |})
  end.
Proof.
  unfold reserve_listing, dict_getitem.
  destruct (d !! str "ListingNo") as [no|]; [|done].
  unfold mbind, M_bind, get_globals. cbn [mret M_ret].
  destruct (decide (no = VStr (str "None"))) as [Hno|Hno].
  - rewrite (bool_decide_eq_false_2 (no ≠ _)) by (by intros ?).
    by rewrite !(bool_decide_eq_true_2 (no = _)).
  - rewrite (bool_decide_eq_true_2 (no ≠ _)) by done.
    rewrite !(bool_decide_eq_false_2 (no = _)) by done.
    destruct (decide (no ∈ listing_nums g)) as [Hin|Hin].
    + rewrite (bool_decide_eq_false_2 (no ∉ _)) by (by intros ?).
      by rewrite bool_decide_eq_true_2.
    + rewrite (bool_decide_eq_true_2 (no ∉ _)) by done.
      by rewrite bool_decide_eq_false_2.
Qed.

Lemma reserve_listing_spec (d : record) g :
  match reserve_listing d g with
  | (inl r, g') =>
      NoDup (result_ids r)
      ∧ (∀ x, x ∈ result_ids r → (x ∉ listing_nums g) ∧ (x ∈ listing_nums g'))
      ∧ listing_nums g ⊆ listing_nums g'
      ∧ data_bun g' = data_bun g
  | (inr _, g') => g' = g
  end.
Proof.
  pose proof (reserve_listing_cases d g) as Hcases.
  destruct (d !! str "ListingNo") as [no|] eqn:Hno; [|by rewrite Hcases].
  case_bool_decide as Hsent.
  { rewrite Hcases. unfold result_ids, record_ids. simpl.
    rewrite Hno, bool_decide_eq_true_2 by done.
    split_and!; try done; [constructor|]. intros x Hx. by apply elem_of_nil in Hx. }
  case_bool_decide as Hin; rewrite Hcases.
  - simpl. split_and!; try done; [constructor|].
    intros x Hx. by apply elem_of_nil in Hx.
  - unfold result_ids, record_ids. simpl.
    rewrite Hno, bool_decide_eq_false_2 by done.
    split_and!; try done.
    + apply NoDup_singleton.
    + intros x ->%list_elem_of_singleton. split; [done|].
      apply elem_of_union_l. by apply elem_of_singleton.
    + apply union_subseteq_r.
Qed.

(** The test under the lock raises nothing but a [KeyError]. *)
Lemma reserve_listing_raises (d : record) : raises_Exception (reserve_listing d).
Proof.
  intros g e g'. pose proof (reserve_listing_cases d g) as Hcases.
  destruct (d !! str "ListingNo") as [no|].
  - repeat case_bool_decide; by rewrite Hcases.
  - rewrite Hcases. by intros [= <- <-].
Qed.

(** The outcomes of a listing task. *)
Lemma async_scrape_listing_outcome url g :
  match session_get url with
  | inr e =>
      async_scrape_listing url g
        = if is_Exception e then (inl None, g) else (inr e, g)
  | inl r =>
      if bool_decide (200 ≤ status_code r < 400)%Z then
        match BeautifulSoup (text r) with
        | inr e =>
            async_scrape_listing url g
              = if is_Exception e then (inl None, g) else (inr e, g)
        | inl soup =>
            async_scrape_listing url g
              = match reserve_listing
                        (<[str "url" := VStr url]> (extract_listing_data soup)) g with
                | (inl res, g') => (inl res, g')
                | (inr _, g') => (inl None, g')
                end
        end
      else async_scrape_listing url g = (inl None, g)
  end.
Proof.
  destruct (session_get url) as [r|e] eqn:Hget.
  2: { unfold async_scrape_listing, try_except, mbind, M_bind, lift.
       by rewrite Hget. }
  destruct (decide (200 ≤ status_code r < 400)%Z) as [Hok|Hbad].
  2: { rewrite bool_decide_eq_false_2 by done.
       unfold async_scrape_listing, try_except, mbind at 1 2, M_bind at 1 2,
         lift at 1, raise_for_status.
       by rewrite Hget, bool_decide_eq_false_2. }
  rewrite bool_decide_eq_true_2 by done.
  destruct (BeautifulSoup (text r)) as [soup|e] eqn:Hparse;
    unfold async_scrape_listing, try_except, mbind at 1 2 3, M_bind at 1 2 3,
      lift, raise_for_status;
    rewrite Hget, bool_decide_eq_true_2 by done; cbn [mret M_ret];
    rewrite Hparse; [|done].
  pose proof (reserve_listing_raises
    (<[str "url" := VStr url]> (extract_listing_data soup)) g) as Hraises.
  destruct (reserve_listing _ g) as [[res|e] g']; [done|].
  by rewrite (Hraises e g').
Qed.
End TaskFacts.

(** ** The tasks of a run that is neither cancelled nor interrupted *)

Section WorldTaskFacts.
Context `{UnicodeTables} `{World}.
Implicit Types (g : Globals) (url href : pystr) (links : gset pystr).

(** A page task returns links that were not reserved before and are
    reserved afterwards. *)
Lemma async_scrape_page_reserving url :
  reserving (λ links : list pystr, links) scraped_links (async_scrape_page url).
Proof.
  intros g. pose proof (async_scrape_page_outcome url g) as Hout.
  assert (∃ r g', (inl [] : list pystr + exn, g) = (inl r, g')
            ∧ NoDup r
            ∧ (∀ x, x ∈ r → (x ∉ scraped_links g) ∧ (x ∈ scraped_links g'))
            ∧ scraped_links g ⊆ scraped_links g'
            ∧ data_bun g' = data_bun g) as Hfail.
  { exists [], g. split_and!; try done; [constructor|].
    intros x Hx. by apply elem_of_nil in Hx. }
  destruct (session_get url) as [r|e] eqn:Hget;
    [|by rewrite Hout, (session_get_Exception url e Hget)].
  case_bool_decide; [|by rewrite Hout].
  destruct (BeautifulSoup (text r)) as [soup|e] eqn:Hparse;
    [|by rewrite Hout, (BeautifulSoup_Exception _ e Hparse)].
  pose proof (scan_links_spec (select soup (str "a[href]")) ∅ g) as Hscan.
  rewrite Hout. clear Hfail.
  destruct (for_each _ ∅ link_step g) as [[links|e] g'].
  - destruct Hscan as (Hfresh & Hsub & _ & Hbun).
    exists (elements links), g'. split_and!; try done.
    + apply NoDup_elements.
    + intros x Hx%elem_of_elements.
      destruct (Hfresh x Hx) as [Hx0|?]; [|done]. by apply elem_of_empty in Hx0.
  - destruct Hscan as (Hsub & _ & Hbun).
    exists [], g'. split_and!; try done; [constructor|].
    intros x Hx. by apply elem_of_nil in Hx.
Qed.

(** A listing task returns a record whose listing number, unless it is
    the string [None], was not reserved before and is reserved after. *)
Lemma async_scrape_listing_reserving url :
  reserving result_ids listing_nums (async_scrape_listing url).
Proof.
  intros g. pose proof (async_scrape_listing_outcome url g) as Hout.
  assert (∃ r g', (inl None : option record + exn, g) = (inl r, g')
            ∧ NoDup (result_ids r)
            ∧ (∀ x, x ∈ result_ids r → (x ∉ listing_nums g) ∧ (x ∈ listing_nums g'))
            ∧ listing_nums g ⊆ listing_nums g'
            ∧ data_bun g' = data_bun g) as Hfail.
  { exists None, g. split_and!; try done; [constructor|].
    intros x Hx. by apply elem_of_nil in Hx. }
  destruct (session_get url) as [r|e] eqn:Hget;
    [|by rewrite Hout, (session_get_Exception url e Hget)].
  case_bool_decide; [|by rewrite Hout].
  destruct (BeautifulSoup (text r)) as [soup|e] eqn:Hparse;
    [|by rewrite Hout, (BeautifulSoup_Exception _ e Hparse)].
  pose proof (reserve_listing_spec
    (<[str "url" := VStr url]> (extract_listing_data soup)) g) as Hres.
  rewrite Hout.
  destruct (reserve_listing _ g) as [[res|e] g'].
  - by exists res, g'.
  - subst g'. exact Hfail.
Qed.
End WorldTaskFacts.

(** ** The batch driver *)

Lemma elem_of_concat {A} (x : A) (ls : list (list A)) :
  x ∈ concat ls ↔ ∃ l, l ∈ ls ∧ x ∈ l.
Proof.
  induction ls as [|l ls IH]; simpl.
  - split; [by intros ?%elem_of_nil|]. by intros (l & ?%elem_of_nil & _).
  - rewrite elem_of_app, IH. split.
    + intros [Hx|(l' & Hl' & Hx)]; [exists l; split; [left|done]|].
      exists l'. split; [by right|done].
    + intros (l' & [->|Hl']%elem_of_cons & Hx); [by left|].
      right. by exists l'.
Qed.

Lemma omap_cons_lookup {R} (finished : gmap nat R) (k : nat) (keys : list nat) :
  omap (λ i, finished !! i) (k :: keys) =
    match finished !! k with
    | Some r => r :: omap (λ i, finished !! i) keys
    | None => omap (λ i, finished !! i) keys
    end.
Proof. done. Qed.

Section BatchFacts.
Context {T R : Type} `{Countable T}.
Variable tokens : R → list T.
Variable registry : Globals → gset T.
Implicit Types (g : Globals) (batch : list (M R)) (order keys : list nat)
  (finished : gmap nat R) (before : gset T).

Lemma batch_invariant_start g : batch_invariant tokens registry (registry g) ∅ g.
Proof.
  split_and!; [done|..].
  - intros i r Hi. by rewrite lookup_empty in Hi.
  - intros i j ri rj x _ Hi. by rewrite lookup_empty in Hi.
Qed.

(** The step of the batch: another coroutine finishes. *)
Lemma batch_invariant_step before finished g i r g' :
  batch_invariant tokens registry before finished g →
  NoDup (tokens r) →
  (∀ x, x ∈ tokens r → (x ∉ registry g) ∧ (x ∈ registry g')) →
  registry g ⊆ registry g' →
  batch_invariant tokens registry before (<[i := r]> finished) g'.
Proof.
  intros (Hbefore & Hold & Hpair) Hnodup Hfresh Hsub. split_and!.
  - by etrans.
  - intros k r' Hk. destruct (decide (k = i)) as [->|Hne].
    + rewrite lookup_insert_eq in Hk. injection Hk as <-. split; [done|].
      intros x Hx. destruct (Hfresh x Hx) as [Hnot Hin]. split; [done|].
      intros Hb. by apply Hnot, Hbefore.
    + rewrite lookup_insert_ne in Hk by done.
      destruct (Hold k r' Hk) as [Hnd Hin]. split; [done|].
      intros x Hx. destruct (Hin x Hx). split; [|done]. by apply Hsub.
  - intros k j rk rj x Hkj Hk Hj Hxk Hxj.
    destruct (decide (k = i)) as [->|Hki].
    + rewrite lookup_insert_eq in Hk. injection Hk as <-.
      rewrite lookup_insert_ne in Hj by done.
      destruct (Hfresh x Hxk) as [Hnot _]. apply Hnot.
      by apply (Hold j rj Hj).
    + rewrite lookup_insert_ne in Hk by done.
      destruct (decide (j = i)) as [->|Hji].
      * rewrite lookup_insert_eq in Hj. injection Hj as <-.
        destruct (Hfresh x Hxj) as [Hnot _]. apply Hnot.
        by apply (Hold k rk Hk).
      * rewrite lookup_insert_ne in Hj by done.
        by apply (Hpair k j rk rj x).
Qed.

Lemma run_in_order_reserving batch before order : ∀ finished g,
  Forall (reserving tokens registry) batch →
  batch_invariant tokens registry before finished g →
  ∃ finished' g',
    run_in_order batch order finished g = (inl finished', g')
    ∧ batch_invariant tokens registry before finished' g'
    ∧ registry g ⊆ registry g'
    ∧ data_bun g' = data_bun g.
Proof.
  induction order as [|i order IH]; intros finished g Hbatch Hinv.
  - by exists finished, g.
  - simpl. destruct (batch !! i) as [task|] eqn:Hi; [|by apply IH].
    assert (reserving tokens registry task) as Htask.
    { rewrite Forall_forall in Hbatch. apply Hbatch.
      by eapply list_elem_of_lookup_2. }
    destruct (Htask g) as (r & g1 & Hrun & Hnodup & Hfresh & Hsub & Hbun).
    rewrite (bind_inl _ _ _ _ _ Hrun).
    destruct (IH (<[i := r]> finished) g1 Hbatch) as (fin' & g' & Hrest & Hinv' & Hsub' & Hbun').
    { by eapply batch_invariant_step. }
    exists fin', g'. split_and!; [done..|by etrans|congruence].
Qed.

(** The results collected from distinct coroutines share no token. *)
Lemma collected_tokens before finished g keys :
  batch_invariant tokens registry before finished g →
  NoDup keys →
  NoDup (concat (tokens <$> omap (λ i, finished !! i) keys))
  ∧ ∀ x, x ∈ concat (tokens <$> omap (λ i, finished !! i) keys) →
      ∃ j rj, j ∈ keys ∧ finished !! j = Some rj ∧ x ∈ tokens rj.
Proof.
  intros (Hbefore & Hold & Hpair) Hkeys.
  induction keys as [|k keys IH].
  - split; [constructor|]. by intros x ?%elem_of_nil.
  - apply NoDup_cons in Hkeys as [Hk Hkeys].
    destruct (IH Hkeys) as [IHnd IHin]. rewrite omap_cons_lookup.
    destruct (finished !! k) as [r|] eqn:Hr.
    + rewrite fmap_cons. simpl. split.
      * apply NoDup_app. split_and!; [by apply (Hold k r)| |done].
        intros x Hx Hx'. destruct (IHin x Hx') as (j & rj & Hj & Hrj & Hxj).
        apply (Hpair k j r rj x); [|done..]. by intros ->.
      * intros x [Hx|Hx]%elem_of_app.
        -- exists k, r. split; [left|done].
        -- destruct (IHin x Hx) as (j & rj & Hj & Hrj & Hxj).
           exists j, rj. split; [by right|done].
    + split; [done|]. intros x Hx.
      destruct (IHin x Hx) as (j & rj & Hj & Hrj & Hxj).
      exists j, rj. split; [by right|done].
Qed.

(** A batch of reserving coroutines, finishing in any order: the batch
    returns, and the tokens of its results are distinct, were not in the
    registry before the batch and are in it afterwards. *)
Lemma gather_reserving batch order g :
  Forall (reserving tokens registry) batch →
  ∃ results g',
    gather batch order g = (inl results, g')
    ∧ NoDup (concat (tokens <$> results))
    ∧ (∀ x, x ∈ concat (tokens <$> results) →
         (x ∉ registry g) ∧ (x ∈ registry g'))
    ∧ registry g ⊆ registry g'
    ∧ data_bun g' = data_bun g.
Proof.
  intros Hbatch.
  destruct (run_in_order_reserving batch (registry g) order ∅ g Hbatch)
    as (fin & g' & Hrun & Hinv & Hsub & Hbun); [apply batch_invariant_start|].
  unfold gather. rewrite (bind_inl _ _ _ _ _ Hrun).
  eexists _, g'. split; [reflexivity|].
  destruct (collected_tokens _ _ _ (seq 0 (length batch)) Hinv) as [Hnd Hin];
    [apply NoDup_seq|].
  split_and!; [done| |done..].
  intros x Hx. destruct (Hin x Hx) as (j & rj & _ & Hj & Hxj).
  destruct Hinv as (_ & Hold & _).
  destruct (Hold j rj Hj) as [_ Hreg]. destruct (Hreg x Hxj). done.
Qed.

(** In a completion order every coroutine finishes once, and the batch
    has one result for each. *)
Lemma run_in_order_dom batch order : ∀ finished g finished' g' i,
  run_in_order batch order finished g = (inl finished', g') →
  is_Some (finished !! i) ∨ (i ∈ order ∧ i < length batch) →
  is_Some (finished' !! i).
Proof.
  induction order as [|k order IH]; intros finished g finished' g' i Hrun Hi.
  - simpl in Hrun. injection Hrun as <- <-.
    destruct Hi as [?|[?%elem_of_nil _]]; done.
  - simpl in Hrun. destruct (batch !! k) as [task|] eqn:Hk.
    + unfold mbind, M_bind in Hrun.
      destruct (task g) as [[r|e] g1]; [|done].
      apply (IH _ _ _ _ i Hrun).
      destruct Hi as [Hi|[[->|Hi]%elem_of_cons Hlt]].
      * left. destruct (decide (i = k)) as [->|?].
        -- rewrite lookup_insert_eq. by eexists.
        -- by rewrite lookup_insert_ne.
      * left. rewrite lookup_insert_eq. by eexists.
      * by right.
    + apply (IH _ _ _ _ i Hrun).
      destruct Hi as [Hi|[[->|Hi]%elem_of_cons Hlt]]; [by left| |by right].
      apply lookup_ge_None in Hk. lia.
Qed.

Lemma gather_length batch order g results g' :
  completion_order (length batch) order →
  gather batch order g = (inl results, g') →
  length results = length batch.
Proof.
  intros Horder Hg. unfold gather, mbind, M_bind in Hg.
  destruct (run_in_order batch order ∅ g) as [[fin|e] g1] eqn:Hrun; [|done].
  injection Hg as <- <-.
  assert (∀ i, i ∈ seq 0 (length batch) → is_Some (fin !! i)) as Hall.
  { intros i Hi. apply (run_in_order_dom _ _ _ _ _ _ i Hrun). right.
    split; [by rewrite Horder|]. apply elem_of_seq in Hi. lia. }
  transitivity (length (seq 0 (length batch))); [|apply length_seq].
  revert Hall. generalize (seq 0 (length batch)) as keys.
  induction keys as [|k keys IH]; intros Hall; [done|].
  rewrite omap_cons_lookup. destruct (Hall k) as [r ->]; [left|].
  simpl. f_equal. apply IH. intros i Hi. apply Hall. by right.
Qed.
End BatchFacts.

(** ** The phases *)

Lemma reserving_total {T R} `{Countable T} (tokens : R → list T)
    (registry : Globals → gset T) (task : M R) :
  reserving tokens registry task → total task.
Proof. intros Htask g. destruct (Htask g) as (r & g' & Hr & _). by exists r, g'. Qed.

(** The chunks of a list of tasks hold tasks of the list. *)
Lemma chunker_Forall {A} (P : A → Prop) (lst : list A) (n : nat) groups :
  Forall P lst → chunker lst n = inl groups → Forall (Forall P) groups.
Proof.
  intros Hlst Hc. destruct n as [|n']; [done|].
  destruct (chunker_returns lst (S n') ltac:(lia)) as (groups' & Hc' & Hcat).
  rewrite Hc in Hc'. injection Hc' as <-.
  rewrite Forall_forall in Hlst.
  apply Forall_forall. intros group Hgroup.
  apply Forall_forall. intros x Hx. apply Hlst. rewrite <- Hcat.
  apply elem_of_concat. by exists group.
Qed.

Section PhaseFacts.
Context `{UnicodeTables} `{World}.
Implicit Types (g : Globals) (schedule : list (list nat)).

Lemma page_batches_spec batches : ∀ schedule all_listing_links g,
  Forall (Forall (reserving (λ links : list pystr, links) scraped_links)) batches →
  NoDup all_listing_links →
  (∀ x, x ∈ all_listing_links → x ∈ scraped_links g) →
  ∃ links g',
    page_batches batches schedule all_listing_links g = (inl links, g')
    ∧ NoDup links
    ∧ (∀ x, x ∈ links → x ∈ scraped_links g')
    ∧ data_bun g' = data_bun g.
Proof.
  induction batches as [|batch batches IH];
    intros schedule links0 g Hbatches Hnd Hin.
  - by exists links0, g.
  - apply Forall_cons in Hbatches as [Hbatch Hbatches]. simpl.
    destruct (gather_reserving _ scraped_links batch (default [] (head schedule)) g Hbatch)
      as (results & g1 & Hg & Hnd1 & Hfresh & Hsub & Hbun).
    rewrite list_fmap_id in Hnd1, Hfresh.
    rewrite (bind_inl _ _ _ _ _ Hg).
    destruct (IH (tail schedule) (links0 ++ concat results) g1 Hbatches)
      as (links & g' & Hrest & Hnd' & Hin' & Hbun').
    + apply NoDup_app. split_and!; [done| |done].
      intros x Hx Hx'. destruct (Hfresh x Hx') as [Hnot _]. by apply Hnot, Hin.
    + intros x [Hx|Hx]%elem_of_app; [by apply Hsub, Hin|by apply Hfresh].
    + exists links, g'. split_and!; [done..|congruence].
Qed.

Lemma page_tasks_reserving (urls : list pystr) :
  Forall (reserving (λ links : list pystr, links) scraped_links)
    (async_scrape_page <$> urls).
Proof.
  apply Forall_fmap, Forall_forall. intros url _.
  apply async_scrape_page_reserving.
Qed.

Lemma listing_tasks_reserving (urls : list pystr) :
  Forall (reserving result_ids listing_nums) (async_scrape_listing <$> urls).
Proof.
  apply Forall_fmap, Forall_forall. intros url _.
  apply async_scrape_listing_reserving.
Qed.

Lemma phase1_spec schedule g :
  ∃ links g',
    phase1 schedule g = (inl links, g')
    ∧ NoDup links ∧ data_bun g' = data_bun g.
Proof.
  unfold phase1.
  set (page_tasks := (λ page_num, async_scrape_page (base_url_format page_num))
                       <$> seq 1 max_pages_to_scrape).
  destruct (chunker_returns page_tasks batch_size ltac:(unfold batch_size; lia))
    as (batches & Hc & _).
  rewrite Hc.
  assert (Forall (Forall (reserving (λ links : list pystr, links) scraped_links))
            batches) as Hbatches.
  { apply (chunker_Forall _ page_tasks batch_size); [|done].
    unfold page_tasks. apply Forall_fmap, Forall_forall. intros n _.
    apply async_scrape_page_reserving. }
  destruct (page_batches_spec batches schedule [] g Hbatches)
    as (links & g' & Hrun & Hnd & _ & Hbun); [constructor|by intros x ?%elem_of_nil|].
  exists links, g'. split; [|done].
  unfold mbind, M_bind, lift. exact Hrun.
Qed.

(** What the loop over a batch of results does to [data_bun]. *)
Lemma collect_spec batch_results : ∀ g,
  collect batch_results g
    = (inl (), set_data_bun g (data_bun g ++ collected batch_results)).
Proof.
  unfold collect, collected.
  induction batch_results as [|data results IH]; intros g.
  - simpl. unfold set_data_bun. rewrite app_nil_r. by destruct g.
  - cbn [for_each].
    change (omap _ (data :: results)) with
      (match (if truthy data then data else None) with
       | Some d => d :: omap (λ data, if truthy data then data else None) results
       | None => omap (λ data, if truthy data then data else None) results
       end).
    destruct data as [d|]; [destruct (truthy (Some d))|].
    + unfold mbind, M_bind, data_bun_append. rewrite IH.
      unfold set_data_bun. simpl. by rewrite <- (assoc_L (++)).
    + rewrite bind_ret. apply IH.
    + rewrite bind_ret. apply IH.
Qed.

Lemma collected_ids batch_results :
  concat (record_ids <$> collected batch_results)
    = concat (result_ids <$> batch_results).
Proof.
  unfold collected.
  induction batch_results as [|data results IH]; [done|].
  change (omap _ (data :: results)) with
    (match (if truthy data then data else None) with
     | Some d => d :: omap (λ data, if truthy data then data else None) results
     | None => omap (λ data, if truthy data then data else None) results
     end).
  rewrite (fmap_cons result_ids), concat_cons, <- IH.
  destruct data as [d|]; [|done].
  change (truthy (Some d)) with (negb (bool_decide (d = ∅))).
  case_bool_decide as Hd; cbn [negb]; cbv beta match.
  - subst d. unfold result_ids, record_ids. cbn [from_option].
    by rewrite lookup_empty.
  - by rewrite fmap_cons, concat_cons.
Qed.

Lemma listing_batches_spec batches : ∀ schedule g,
  Forall (Forall (reserving result_ids listing_nums)) batches →
  data_bun_distinct g →
  ∃ g', listing_batches batches schedule g = (inl (), g')
        ∧ data_bun_distinct g'.
Proof.
  induction batches as [|batch batches IH]; intros schedule g Hbatches Hinv.
  - by exists g.
  - apply Forall_cons in Hbatches as [Hbatch Hbatches]. simpl.
    destruct (gather_reserving _ listing_nums batch (default [] (head schedule)) g Hbatch)
      as (results & g1 & Hg & Hnd1 & Hfresh & Hsub & Hbun).
    rewrite (bind_inl _ _ _ _ _ Hg).
    rewrite (bind_inl _ _ _ _ _ (collect_spec results g1)).
    apply IH; [done|]. destruct Hinv as [Hnd Hin].
    unfold data_bun_distinct, set_data_bun. simpl.
    rewrite Hbun, fmap_app, concat_app, collected_ids. split.
    + apply NoDup_app. split_and!; [done| |done].
      intros x Hx Hx'. destruct (Hfresh x Hx') as [Hnot _]. by apply Hnot, Hin.
    + intros x [Hx|Hx]%elem_of_app; [by apply Hsub, Hin|by apply Hfresh].
Qed.

Lemma phase2_spec all_listing_links schedule g :
  data_bun_distinct g →
  ∃ g', phase2 all_listing_links schedule g = (inl (), g')
        ∧ data_bun_distinct g'.
Proof.
  intros Hinv. unfold phase2.
  destruct (chunker_returns (async_scrape_listing <$> all_listing_links) batch_size
              ltac:(unfold batch_size; lia)) as (batches & Hc & _).
  rewrite Hc.
  destruct (listing_batches_spec batches schedule g) as (g' & Hrun & Hinv');
    [|done|].
  { apply (chunker_Forall _ _ batch_size) with (2 := Hc).
    apply listing_tasks_reserving. }
  exists g'. split; [|done]. unfold mbind, M_bind, lift. exact Hrun.
Qed.

Lemma main_spec schedule1 schedule2 g :
  data_bun g = [] →
  ∃ g', main schedule1 schedule2 g = (inl (), g') ∧ data_bun_distinct g'.
Proof.
  intros Hempty. unfold main.
  destruct (phase1_spec schedule1 g) as (links & g1 & Hp1 & _ & Hbun).
  rewrite (bind_inl _ _ _ _ _ Hp1).
  apply phase2_spec. unfold data_bun_distinct. rewrite Hbun, Hempty.
  split; [constructor|]. by intros x ?%elem_of_nil.
Qed.

(** Distinct listing numbers, counted. *)
Lemma data_bun_distinct_count g no :
  data_bun_distinct g → no ≠ VStr (str "None") →
  length (with_listing_no no (data_bun g)) ≤ 1.
Proof.
  intros [Hnd _] Hno. unfold with_listing_no.
  revert Hnd. generalize (data_bun g) as bun.
  induction bun as [|d bun IH]; intros Hnd; [simpl; lia|].
  rewrite fmap_cons, concat_cons in Hnd.
  apply NoDup_app in Hnd as (_ & Hdisj & Hnd).
  rewrite filter_cons. case_decide as Hd; [|by apply IH].
  assert (record_ids d = [no]) as Hids.
  { unfold record_ids. by rewrite Hd, bool_decide_eq_false_2. }
  assert (filter (λ d', d' !! str "ListingNo" = Some no) bun = []) as ->; [|done].
  destruct (filter _ bun) as [|d' rest] eqn:Hf; [done|].
  assert (d' ∈ filter (λ d', d' !! str "ListingNo" = Some no) bun) as Hin
    by (rewrite Hf; left).
  apply list_elem_of_filter in Hin as [Hd' Hin].
  destruct (Hdisj no).
  - rewrite Hids. left.
  - apply elem_of_concat. exists (record_ids d'). split.
    + apply list_elem_of_fmap. by exists d'.
    + unfold record_ids. rewrite Hd', bool_decide_eq_false_2 by done. left.
Qed.

(** The failures of a page task. *)
Lemma page_fetch_fails url g e :
  session_get url = inr e → async_scrape_page url g = (inl [], g).
Proof.
  intros Hget. pose proof (async_scrape_page_outcome url g) as Hout.
  rewrite Hget in Hout. by rewrite Hout, (session_get_Exception url e Hget).
Qed.

Lemma page_status_fails url g r :
  session_get url = inl r → ¬ (200 ≤ status_code r < 400)%Z →
  async_scrape_page url g = (inl [], g).
Proof.
  intros Hget Hstatus. pose proof (async_scrape_page_outcome url g) as Hout.
  by rewrite Hget, bool_decide_eq_false_2 in Hout.
Qed.

Lemma page_parse_fails url g r e :
  session_get url = inl r → (200 ≤ status_code r < 400)%Z →
  BeautifulSoup (text r) = inr e →
  async_scrape_page url g = (inl [], g).
Proof.
  intros Hget Hstatus Hparse. pose proof (async_scrape_page_outcome url g) as Hout.
  rewrite Hget, bool_decide_eq_true_2, Hparse in Hout by done.
  by rewrite Hout, (BeautifulSoup_Exception _ e Hparse).
Qed.

(** The failures of a listing task. *)
Lemma listing_fetch_fails url g e :
  session_get url = inr e → async_scrape_listing url g = (inl None, g).
Proof.
  intros Hget. pose proof (async_scrape_listing_outcome url g) as Hout.
  rewrite Hget in Hout. by rewrite Hout, (session_get_Exception url e Hget).
Qed.

Lemma listing_status_fails url g r :
  session_get url = inl r → ¬ (200 ≤ status_code r < 400)%Z →
  async_scrape_listing url g = (inl None, g).
Proof.
  intros Hget Hstatus. pose proof (async_scrape_listing_outcome url g) as Hout.
  by rewrite Hget, bool_decide_eq_false_2 in Hout.
Qed.

Lemma listing_parse_fails url g r e :
  session_get url = inl r → (200 ≤ status_code r < 400)%Z →
  BeautifulSoup (text r) = inr e →
  async_scrape_listing url g = (inl None, g).
Proof.
  intros Hget Hstatus Hparse.
  pose proof (async_scrape_listing_outcome url g) as Hout.
  rewrite Hget, bool_decide_eq_true_2, Hparse in Hout by done.
  by rewrite Hout, (BeautifulSoup_Exception _ e Hparse).
Qed.

(** A listing page that parses: the task is the test under the lock on
    the extracted record. *)
Lemma listing_parsed url g r soup :
  session_get url = inl r → (200 ≤ status_code r < 400)%Z →
  BeautifulSoup (text r) = inl soup →
  async_scrape_listing url g =
    match reserve_listing (<[str "url" := VStr url]> (extract_listing_data soup)) g with
    | (inl res, g') => (inl res, g')
    | (inr _, g') => (inl None, g')
    end.
Proof.
  intros Hget Hstatus Hparse.
  pose proof (async_scrape_listing_outcome url g) as Hout.
  by rewrite Hget, bool_decide_eq_true_2, Hparse in Hout.
Qed.
End PhaseFacts.

Section Totality.
Context `{UnicodeTables} `{World}.

Lemma listing_batches_total batches : ∀ schedule g,
  Forall (Forall (reserving result_ids listing_nums)) batches →
  ∃ g', listing_batches batches schedule g = (inl (), g').
Proof.
  induction batches as [|batch batches IH]; intros schedule g Hbatches.
  - by exists g.
  - apply Forall_cons in Hbatches as [Hbatch Hbatches]. simpl.
    destruct (gather_reserving _ listing_nums batch (default [] (head schedule)) g Hbatch)
      as (results & g1 & Hg & _).
    rewrite (bind_inl _ _ _ _ _ Hg).
    rewrite (bind_inl _ _ _ _ _ (collect_spec results g1)).
    by apply IH.
Qed.

Lemma main_total schedule1 schedule2 : total (main schedule1 schedule2).
Proof.
  intros g. unfold main.
  destruct (phase1_spec schedule1 g) as (links & g1 & Hp1 & _).
  rewrite (bind_inl _ _ _ _ _ Hp1). unfold phase2.
  destruct (chunker_returns (async_scrape_listing <$> links) batch_size
              ltac:(unfold batch_size; lia)) as (batches & Hc & _).
  rewrite Hc.
  destruct (listing_batches_total batches schedule2 g1) as (g' & Hrun).
  { apply (chunker_Forall _ _ batch_size) with (2 := Hc).
    apply listing_tasks_reserving. }
  exists (), g'. unfold mbind, M_bind, lift. exact Hrun.
Qed.
End Totality.

(** C1: of two reservation attempts on links with the same absolute form,
    in a run of attempts in any order, at most one succeeds; phase 1
    returns from every state and under every schedule, and no link occurs
    twice in the candidate list it returns; the same holds for any pages in
    batches of any size. *)
Theorem url_reserved_once `{UnicodeTables} `{World} :
  (∀ hrefs g, ∃ answers g',
     reserve_all hrefs g = (inl answers, g')
     ∧ length answers = length hrefs
     ∧ ∀ i j A B, i ≠ j →
         hrefs !! i = Some A → hrefs !! j = Some B →
         absolute A = absolute B →
         ¬ (answers !! i = Some true ∧ answers !! j = Some true))
  ∧ (∀ schedule g, ∃ links g',
       phase1 schedule g = (inl links, g') ∧ NoDup links)
  ∧ (∀ urls n batches schedule g,
       chunker (async_scrape_page <$> urls) n = inl batches →
       ∃ links g',
         page_batches batches schedule [] g = (inl links, g') ∧ NoDup links).
Proof.
  split_and!.
  - intros hrefs g.
    destruct (reserve_all_spec hrefs g) as (answers & g' & Hrun & Hlen & _ & _ & Hpair).
    exists answers, g'. split_and!; [done..|].
    intros i j A B Hij HA HB Heq [Hi Hj].
    destruct (decide (i < j)).
    + by apply (Hpair i j A B).
    + apply (Hpair j i B A); [lia|done..].
  - intros schedule g.
    destruct (phase1_spec schedule g) as (links & g' & Hrun & Hnd & _).
    by exists links, g'.
  - intros urls n batches schedule g Hc.
    destruct (page_batches_spec batches schedule [] g) as (links & g' & Hrun & Hnd & _).
    + apply (chunker_Forall _ _ n) with (2 := Hc). apply page_tasks_reserving.
    + constructor.
    + by intros x ?%elem_of_nil.
    + by exists links, g'.
Qed.

Lemma url_reserved_once_witness :
  ∃ answers g',
    @reserve_all ascii_only
      [str "/for-sale/a/b/c/1/2"; str "https://www.property24.com/for-sale/a/b/c/1/2"]
      initial_globals = (inl answers, g')
    ∧ ¬ (answers !! 0 = Some true ∧ answers !! 1 = Some true).
Proof.
  destruct (url_reserved_once (H := ascii_only) (H0 := offline)) as (Hpair & _).
  destruct (Hpair [str "/for-sale/a/b/c/1/2";
                   str "https://www.property24.com/for-sale/a/b/c/1/2"]
              initial_globals) as (answers & g' & Hrun & _ & Hone).
  exists answers, g'. split; [done|].
  apply (Hone 0 1 (str "/for-sale/a/b/c/1/2")
           (str "https://www.property24.com/for-sale/a/b/c/1/2"));
    [lia|reflexivity|reflexivity|by vm_compute].
Defined.

(** C2: after a run of [main] from the initial state, under any schedules,
    [data_bun] holds at most one record for each listing number other than
    the string [None]; a record whose listing number is the string [None]
    is returned by the test under the lock whatever [listing_nums] and
    [data_bun] hold, by the task of its page, and the loop over the batch
    results appends it. *)
Theorem listing_number_once `{UnicodeTables} `{World} :
  (∀ schedule1 schedule2, ∃ g',
     main schedule1 schedule2 initial_globals = (inl (), g')
     ∧ ∀ no, no ≠ VStr (str "None") →
         length (with_listing_no no (data_bun g')) ≤ 1)
  ∧ (∀ listing_data g,
       listing_data !! str "ListingNo" = Some (VStr (str "None")) →
       reserve_listing listing_data g = (inl (Some listing_data), g))
  ∧ (∀ url g r soup,
       session_get url = inl r → (200 ≤ status_code r < 400)%Z →
       BeautifulSoup (text r) = inl soup →
       listing_no_rule soup = str "None" →
       ∃ d, async_scrape_listing url g = (inl (Some d), g)
            ∧ d !! str "ListingNo" = Some (VStr (str "None")))
  ∧ (∀ batch_results g d,
       Some d ∈ batch_results →
       d !! str "ListingNo" = Some (VStr (str "None")) →
       ∃ g', collect batch_results g = (inl (), g')
             ∧ d ∈ data_bun g'
             ∧ length (data_bun g') = length (data_bun g) + length (collected batch_results)).
Proof.
  split_and!.
  - intros schedule1 schedule2.
    destruct (main_spec schedule1 schedule2 initial_globals eq_refl)
      as (g' & Hrun & Hinv).
    exists g'. split; [done|]. intros no Hno.
    by apply data_bun_distinct_count.
  - intros d g Hd. pose proof (reserve_listing_cases d g) as Hcases.
    rewrite Hd, bool_decide_eq_true_2 in Hcases by done. done.
  - intros url g r soup Hget Hstatus Hparse Hno.
    set (d := <[str "url" := VStr url]> (extract_listing_data soup)).
    assert (d !! str "ListingNo" = Some (VStr (str "None"))) as Hd.
    { unfold d. rewrite lookup_insert_ne by str_neq.
      rewrite (extract_late soup (str "ListingNo") (VStr (listing_no_rule soup))).
      - by rewrite Hno.
      - by apply (bool_decide_unpack _); vm_compute.
      - unfold own_rule. by str_cases. }
    exists d. split; [|done].
    rewrite (listing_parsed url g r soup) by done. fold d.
    pose proof (reserve_listing_cases d g) as Hcases.
    rewrite Hd, bool_decide_eq_true_2 in Hcases by done. by rewrite Hcases.
  - intros results g d Hin Hd. eexists. split; [apply collect_spec|].
    unfold set_data_bun. simpl. split; [|by rewrite length_app].
    apply elem_of_app. right. unfold collected.
    apply list_elem_of_omap. exists (Some d). split; [done|].
    change (truthy (Some d)) with (negb (bool_decide (d = ∅))).
    rewrite bool_decide_eq_false_2; [done|].
    intros ->. by rewrite lookup_empty in Hd.
Qed.

Lemma listing_number_once_witness :
  @reserve_listing
    (<[str "ListingNo" := VStr (str "None")]> ∅)
    {| scraped_links := ∅;
       listing_nums := {[VStr (str "None")]};
       data_bun := [<[str "ListingNo" := VStr (str "None")]> ∅] |}
  = (inl (Some (<[str "ListingNo" := VStr (str "None")]> ∅)),
     {| scraped_links := ∅;
        listing_nums := {[VStr (str "None")]};
        data_bun := [<[str "ListingNo" := VStr (str "None")]> ∅] |}).
Proof.
  apply (listing_number_once (H := ascii_only) (H0 := offline)).
  by rewrite lookup_insert_eq.
Defined.

(** C3: what the fetch or the parser raises inside a task is caught by
    the task when it is an instance of [Exception], and so is a status
    outside the accepted range: a page task then returns the empty list and
    a listing task returns [None], and the state is as before.  What is no
    instance of [Exception] is not caught: the task raises it.  So when the
    fetch and the parser raise nothing but instances of [Exception], a page
    task and a listing task return from every state; a batch of tasks
    returns, with one result for each task when every task has finished;
    and [main] returns. *)
Theorem task_failures_contained `{UnicodeTables} `{Collaborators} :
  (∀ url g e,
     session_get url = inr e → is_Exception e = true →
     async_scrape_page url g = (inl [], g)
     ∧ async_scrape_listing url g = (inl None, g))
  ∧ (∀ url g r,
       session_get url = inl r → ¬ (200 ≤ status_code r < 400)%Z →
       async_scrape_page url g = (inl [], g)
       ∧ async_scrape_listing url g = (inl None, g))
  ∧ (∀ url g r e,
       session_get url = inl r → (200 ≤ status_code r < 400)%Z →
       BeautifulSoup (text r) = inr e → is_Exception e = true →
       async_scrape_page url g = (inl [], g)
       ∧ async_scrape_listing url g = (inl None, g))
  ∧ (∀ url g e,
       session_get url = inr e → is_Exception e = false →
       async_scrape_page url g = (inr e, g)
       ∧ async_scrape_listing url g = (inr e, g))
  ∧ (∀ url g r e,
       session_get url = inl r → (200 ≤ status_code r < 400)%Z →
       BeautifulSoup (text r) = inr e → is_Exception e = false →
       async_scrape_page url g = (inr e, g)
       ∧ async_scrape_listing url g = (inr e, g))
  ∧ ((∀ url e, session_get url = inr e → is_Exception e = true) →
     (∀ markup e, BeautifulSoup markup = inr e → is_Exception e = true) →
     (∀ url g, ∃ links g', async_scrape_page url g = (inl links, g'))
     ∧ (∀ url g, fetch_or_parse_fails url →
          async_scrape_page url g = (inl [], g))
     ∧ (∀ url g, ∃ data g', async_scrape_listing url g = (inl data, g'))
     ∧ (∀ url g, fetch_or_parse_fails url →
          async_scrape_listing url g = (inl None, g))
     ∧ (∀ urls order g, ∃ results g',
          gather (async_scrape_page <$> urls) order g = (inl results, g')
          ∧ (completion_order (length urls) order →
             length results = length urls))
     ∧ (∀ urls order g, ∃ results g',
          gather (async_scrape_listing <$> urls) order g = (inl results, g')
          ∧ (completion_order (length urls) order →
             length results = length urls))
     ∧ (∀ schedule1 schedule2 g, ∃ g',
          main schedule1 schedule2 g = (inl (), g'))).
Proof.
  split_and!.
  - intros url g e Hget He.
    pose proof (async_scrape_page_outcome url g) as Hpage.
    pose proof (async_scrape_listing_outcome url g) as Hlisting.
    rewrite Hget, He in Hpage, Hlisting. done.
  - intros url g r Hget Hbad.
    pose proof (async_scrape_page_outcome url g) as Hpage.
    pose proof (async_scrape_listing_outcome url g) as Hlisting.
    rewrite Hget, bool_decide_eq_false_2 in Hpage, Hlisting by done. done.
  - intros url g r e Hget Hok Hparse He.
    pose proof (async_scrape_page_outcome url g) as Hpage.
    pose proof (async_scrape_listing_outcome url g) as Hlisting.
    rewrite Hget, bool_decide_eq_true_2, Hparse, He in Hpage, Hlisting by done.
    done.
  - intros url g e Hget He.
    pose proof (async_scrape_page_outcome url g) as Hpage.
    pose proof (async_scrape_listing_outcome url g) as Hlisting.
    rewrite Hget, He in Hpage, Hlisting. done.
  - intros url g r e Hget Hok Hparse He.
    pose proof (async_scrape_page_outcome url g) as Hpage.
    pose proof (async_scrape_listing_outcome url g) as Hlisting.
    rewrite Hget, bool_decide_eq_true_2, Hparse, He in Hpage, Hlisting by done.
    done.
  - intros Hfetch Hparser.
    pose (W := {| collaborators := _;
                  session_get_Exception := Hfetch;
                  BeautifulSoup_Exception := Hparser |}).
    split_and!.
    + intros url.
      apply (reserving_total _ _ _ (async_scrape_page_reserving (H0 := W) url)).
    + intros url g Hfail. unfold fetch_or_parse_fails in Hfail.
      destruct (session_get url) as [r|e] eqn:Hget;
        [|by eapply (page_fetch_fails (H0 := W))].
      destruct (decide (200 ≤ status_code r < 400)%Z) as [Hok|Hbad];
        [|by eapply (page_status_fails (H0 := W))].
      destruct Hfail as [?|[e He]]; [done|].
      by eapply (page_parse_fails (H0 := W)).
    + intros url.
      apply (reserving_total _ _ _ (async_scrape_listing_reserving (H0 := W) url)).
    + intros url g Hfail. unfold fetch_or_parse_fails in Hfail.
      destruct (session_get url) as [r|e] eqn:Hget;
        [|by eapply (listing_fetch_fails (H0 := W))].
      destruct (decide (200 ≤ status_code r < 400)%Z) as [Hok|Hbad];
        [|by eapply (listing_status_fails (H0 := W))].
      destruct Hfail as [?|[e He]]; [done|].
      by eapply (listing_parse_fails (H0 := W)).
    + intros urls order g.
      destruct (gather_reserving _ scraped_links _ order g
                  (page_tasks_reserving (H0 := W) urls))
        as (results & g' & Hg & _).
      exists results, g'. split; [done|]. intros Horder.
      rewrite <- (length_fmap async_scrape_page urls) in Horder |- *.
      by eapply gather_length.
    + intros urls order g.
      destruct (gather_reserving _ listing_nums _ order g
                  (listing_tasks_reserving (H0 := W) urls))
        as (results & g' & Hg & _).
      exists results, g'. split; [done|]. intros Horder.
      rewrite <- (length_fmap async_scrape_listing urls) in Horder |- *.
      by eapply gather_length.
    + intros schedule1 schedule2 g.
      destruct (main_total (H0 := W) schedule1 schedule2 g) as ([] & g' & Hrun).
      by exists g'.
Qed.

Lemma task_failures_contained_witness :
  (@async_scrape_page ascii_only offline
     (str "https://www.property24.com/for-sale/gauteng/1/p1") initial_globals
   = (inl [], initial_globals)
   ∧ @async_scrape_listing ascii_only offline
       (str "https://www.property24.com/for-sale/gauteng/1/p1") initial_globals
     = (inl None, initial_globals))
  ∧ ∃ g', @main ascii_only offline [[0; 1; 2; 3; 4; 5; 6; 7; 8; 9]] []
            initial_globals = (inl (), g').
Proof.
  destruct (task_failures_contained (H := ascii_only) (H0 := offline))
    as (Hfetch & _ & _ & _ & _ & Hrun).
  split.
  - apply (Hfetch _ _ (RequestException (str "timed out"))); reflexivity.
  - apply (Hrun (session_get_Exception (World := offline))
                (BeautifulSoup_Exception (World := offline))).
Defined.

(** C3 as the specification words it fails: the cancellation of a task
    arrives at its awaited fetch as an exception the handler of the task
    does not catch, and so does a keyboard interrupt in the parser; the
    task raises it, and so do the batch it is in and [main]. *)
Lemma task_failures_contained_counterexample :
  (@session_get cancelled (str "https://www.property24.com/for-sale/gauteng/1/p1")
   = inr CancelledError
   ∧ @async_scrape_page ascii_only cancelled
       (str "https://www.property24.com/for-sale/gauteng/1/p1") initial_globals
     = (inr CancelledError, initial_globals)
   ∧ @async_scrape_listing ascii_only cancelled
       (str "https://www.property24.com/for-sale/a/b/c/1/2") initial_globals
     = (inr CancelledError, initial_globals))
  ∧ (@BeautifulSoup interrupted [] = inr KeyboardInterrupt
     ∧ @async_scrape_page ascii_only interrupted
         (str "https://www.property24.com/for-sale/gauteng/1/p1") initial_globals
       = (inr KeyboardInterrupt, initial_globals)
     ∧ @async_scrape_listing ascii_only interrupted
         (str "https://www.property24.com/for-sale/a/b/c/1/2") initial_globals
       = (inr KeyboardInterrupt, initial_globals))
  ∧ gather
      (@async_scrape_page ascii_only cancelled
         <$> [str "https://www.property24.com/for-sale/gauteng/1/p1";
              str "https://www.property24.com/for-sale/gauteng/1/p2"])
      [0; 1] initial_globals
    = (inr CancelledError, initial_globals)
  ∧ @main ascii_only cancelled [[0; 1; 2; 3; 4; 5; 6; 7; 8; 9]] [] initial_globals
    = (inr CancelledError, initial_globals).
Proof. split_and!; by vm_compute. Qed.

(** ** A run *)

(** In the example world the ten search pages link to one listing between
    them; whichever page finishes first reserves it, the candidate list has
    it once, and [data_bun] ends with the one record. *)
Example run_example :
  let '(r, g) := @main ascii_only example_world [[3; 1; 2; 0; 9; 8; 7; 6; 5; 4]] [[0]]
                   initial_globals in
  r = inl ()
  ∧ elements (scraped_links g) = [str "https://www.property24.com/for-sale/a/b/c/1/2"]
  ∧ ((λ d : record, d !! str "ListingNo") <$> data_bun g) = [Some (VStr (str "999"))].
Proof. by vm_compute. Qed.

(* ================================================================== *)
(** * Part III: further properties of the program *)
(* ================================================================== *)

(** ** The helper functions *)

Section TrimFacts.
Implicit Types s : pystr.

Lemma lstrip_cut s :
∃ a, s = a ++ lstrip s ∧ Forall (λ c, isspace c = true) a.
Proof.
induction s as [|c s (a & Ha & Hsp)]; [by exists []|]. simpl.
destruct (isspace c) eqn:Hc.
- exists (c :: a). split; [by rewrite <- app_comm_cons, <- Ha|by constructor].
- by exists [].
Qed.

Lemma rstrip_cut s :
∃ b, s = rstrip s ++ b ∧ Forall (λ c, isspace c = true) b.
Proof.
destruct (lstrip_cut (reverse s)) as (a & Ha & Hsp).
exists (reverse a). split; [|by apply Forall_reverse].
unfold rstrip. by rewrite <- reverse_app, <- Ha, reverse_involutive.
Qed.

(** [strip] removes white space at the two ends and nothing else. *)
Lemma strip_cut s :
∃ a b, s = a ++ strip s ++ b
       ∧ Forall (λ c, isspace c = true) a ∧ Forall (λ c, isspace c = true) b.
Proof.
destruct (lstrip_cut s) as (a & Ha & Hsa).
destruct (rstrip_cut (lstrip s)) as (b & Hb & Hsb).
exists a, b. unfold strip. by rewrite <- Hb.
Qed.

Lemma elem_of_strip s c : c ∈ strip s → c ∈ s.
Proof.
destruct (strip_cut s) as (a & b & Hs & _). intros Hc. rewrite Hs.
apply elem_of_app. right. apply elem_of_app. by left.
Qed.

Lemma length_strip s : length (strip s) ≤ length s.
Proof.
destruct (strip_cut s) as (a & b & Hs & _).
rewrite Hs at 2. rewrite !length_app. lia.
Qed.

Lemma split_first_no_sep sep s : sep ∉ (split_first sep s).1.
Proof.
induction s as [|c s IH]; simpl; [by intros ?%elem_of_nil|].
case_bool_decide as Hc; [by intros ?%elem_of_nil|].
destruct (split_first sep s) as [l r]. simpl in *.
intros [->|?]%elem_of_cons; done.
Qed.

Lemma length_replace_from (old : pystr) : ∀ s n,
length (replace_from old [] n s) ≤ length s.
Proof.
intros s. induction s as [|c s IH]; intros n; [done|].
cbn [replace_from]. destruct n as [|n].
- destruct (startswith (c :: s) old); cbn [app length].
  + specialize (IH (length old - 1)). lia.
  + specialize (IH 0). lia.
- specialize (IH n). cbn [length]. lia.
Qed.
End TrimFacts.

(** X6: [remove_superscripts] works character by character: it distributes
    over concatenation, never lengthens a text, and returns a text
    unchanged exactly when the text has none of the five characters. *)
Theorem remove_superscripts_compose (a b : pystr) :
  remove_superscripts (a ++ b) = remove_superscripts a ++ remove_superscripts b
  ∧ length (remove_superscripts a) ≤ length a
  ∧ (remove_superscripts a = a ↔
       ∀ c, c ∈ [0xb2; 0xb3; 0xe9; 0xb0; 0xb1]%N → c ∉ a).
Proof.
  unfold remove_superscripts. rewrite !sub_class_delete. split_and!.
  - apply filter_app.
  - apply length_filter.
  - fold superscript_class. split.
    + intros Hfix c Hc Hin. rewrite <- Hfix in Hin.
      by apply list_elem_of_filter in Hin as [Hnot _].
    + intros Hnone. induction a as [|c a IH]; [done|].
      rewrite filter_cons. rewrite decide_True.
      * f_equal. apply IH. intros c' Hc' Hin. apply (Hnone c' Hc'). by right.
      * intros Hc. apply (Hnone c Hc). left.
Qed.

Lemma remove_superscripts_compose_witness :
  remove_superscripts (str "120 m") = str "120 m".
Proof.
  apply (remove_superscripts_compose (str "120 m") []).
  intros c Hc. rewrite !elem_of_cons, elem_of_nil in Hc.
  destruct Hc as [->|[->|[->|[->|[->|[]]]]]];
    by apply (bool_decide_eq_false_1 (_ ∈ _)); vm_compute.
Defined.

Lemma clean_description_infix (desc : pystr) :
  ∃ pre post, desc = pre ++ clean_description desc ++ post.
Proof.
  unfold clean_description. case_bool_decide.
  - destruct (strip_cut (take (length desc / 2) desc)) as (a & b & Hs & _).
    exists a, (b ++ drop (length desc / 2) desc).
    rewrite <- (take_drop (length desc / 2) desc) at 1.
    rewrite Hs at 1. by rewrite <- !(assoc_L (++)).
  - destruct (strip_cut desc) as (a & b & Hs & _). by exists a, b.
Qed.

Lemma length_clean_description (desc : pystr) :
  length (clean_description desc) ≤ length desc.
Proof.
  destruct (clean_description_infix desc) as (pre & post & Hcut).
  rewrite Hcut at 2. rewrite !length_app. lia.
Qed.

(** X5: [clean_description] never invents text: its result is one
    contiguous piece of the description, so it is never longer; a
    description that is empty or white space only is cleaned to the empty
    string. *)
Theorem clean_description_cut (desc : pystr) :
  (∃ pre post, desc = pre ++ clean_description desc ++ post)
  ∧ length (clean_description desc) ≤ length desc
  ∧ (Forall (λ c, isspace c = true) desc → clean_description desc = []).
Proof.
  split_and!.
  - apply clean_description_infix.
  - apply length_clean_description.
  - intros Hsp. unfold clean_description.
    rewrite (strip_spaces desc Hsp).
    rewrite (strip_spaces (take _ desc)) by (by apply Forall_take).
    by case_bool_decide.
Qed.

Lemma clean_description_cut_witness : clean_description (str "  ") = [].
Proof. apply clean_description_cut. by repeat constructor. Defined.

(** ** The extraction rules *)

Section RuleFacts.
Context `{UnicodeTables}.
Implicit Types soup : Soup.

Lemma remove_superscripts_free (text : pystr) c :
c ∈ superscript_class → c ∉ remove_superscripts text.
Proof.
intros Hc Hin. unfold remove_superscripts in Hin.
rewrite sub_class_delete in Hin.
by apply list_elem_of_filter in Hin as [Hnot _].
Qed.

Lemma elem_of_remove_superscripts (text : pystr) c :
c ∈ remove_superscripts text → c ∈ text.
Proof.
unfold remove_superscripts. rewrite sub_class_delete.
by intros [_ ?]%list_elem_of_filter.
Qed.

Lemma length_remove_superscripts (text : pystr) :
length (remove_superscripts text) ≤ length text.
Proof.
unfold remove_superscripts. rewrite sub_class_delete. apply length_filter.
Qed.
End RuleFacts.

(** X3: the size rule.  The extracted size never contains a colon nor one
    of the five characters of [remove_superscripts]; when the text of the
    size element has no colon the size is that text without those
    characters, and when there is no size element it is the string [None]. *)
Theorem size_rule_spec (soup : Soup) :
  (colon ∉ size_rule soup)
  ∧ (∀ c, c ∈ [0xb2; 0xb3; 0xe9; 0xb0; 0xb1]%N → c ∉ size_rule soup)
  ∧ (∀ size_elem,
       find soup (str "p24_size") = Some size_elem →
       colon ∉ get_text [] size_elem →
       size_rule soup = remove_superscripts (get_text [] size_elem))
  ∧ (find soup (str "p24_size") = None → size_rule soup = str "None").
Proof.
  unfold size_rule. split_and!.
  - destruct (find soup (str "p24_size")) as [e|];
      [|by apply (bool_decide_eq_false_1 (_ ∈ _)); vm_compute].
    intros Hin%elem_of_remove_superscripts.
    destruct (contains colon (get_text [] e)) eqn:Hc.
    + apply elem_of_strip in Hin. by apply split_first_no_sep in Hin.
    + by apply contains_false in Hc.
  - intros c Hc. destruct (find soup (str "p24_size")) as [e|].
    + by apply remove_superscripts_free.
    + rewrite !elem_of_cons, elem_of_nil in Hc.
      destruct Hc as [->|[->|[->|[->|[->|[]]]]]];
        by apply (bool_decide_eq_false_1 (_ ∈ _)); vm_compute.
  - intros e -> Hno. by rewrite (proj2 (contains_false _ _) Hno).
  - by intros ->.
Qed.

Lemma size_rule_spec_witness :
  size_rule
    {| find := λ c, if bool_decide (c = str "p24_size")
                    then Some (text_tag (str "120 m")) else None;
       find_all := λ _, []; select := λ _, []; select_one := λ _, None;
       find_div_class_containing := λ _, None |}
  = str "120 m".
Proof.
  destruct (size_rule_spec
    {| find := λ c, if bool_decide (c = str "p24_size")
                    then Some (text_tag (str "120 m")) else None;
       find_all := λ _, []; select := λ _, []; select_one := λ _, None;
       find_div_class_containing := λ _, None |}) as (_ & _ & Hplain & _).
  rewrite (Hplain (text_tag (str "120 m"))).
  - by vm_compute.
  - by vm_compute.
  - by apply (bool_decide_eq_false_1 (_ ∈ _)); vm_compute.
Defined.

(** X4: the description rule.  The description is read from the element
    of class [js_readMoreText] when there is one, whatever the container
    holds; it never contains one of the five characters of
    [remove_superscripts] and is never longer than the text of its element
    joined by spaces; without either element it is the string
    [None Found]. *)
Theorem description_rule_spec (soup : Soup) :
  (∀ c, c ∈ [0xb2; 0xb3; 0xe9; 0xb0; 0xb1]%N → c ∉ description_rule soup)
  ∧ (∀ e, find soup (str "js_readMoreText") = Some e →
       description_rule soup
         = remove_superscripts
             (clean_description (replace (str " Read Less") [] (get_text (str " ") e)))
       ∧ length (description_rule soup) ≤ length (get_text (str " ") e))
  ∧ (∀ e, find soup (str "js_readMoreText") = None →
       find soup (str "js_readMoreContainer") = Some e →
       description_rule soup
         = remove_superscripts
             (clean_description (replace (str " Read Less") [] (get_text (str " ") e)))
       ∧ length (description_rule soup) ≤ length (get_text (str " ") e))
  ∧ (find soup (str "js_readMoreText") = None →
     find soup (str "js_readMoreContainer") = None →
     description_rule soup = str "None Found").
Proof.
  assert (∀ text : pystr,
    length (remove_superscripts
              (clean_description (replace (str " Read Less") [] text)))
      ≤ length text) as Hlen.
  { intros text. etrans; [apply length_remove_superscripts|].
    etrans; [apply length_clean_description|]. apply length_replace_from. }
  unfold description_rule, desc_elem. split_and!.
  - intros c Hc.
    assert (c ∉ str "None Found") as Hdefault.
    { rewrite !elem_of_cons, elem_of_nil in Hc.
      destruct Hc as [->|[->|[->|[->|[->|[]]]]]];
        by apply (bool_decide_eq_false_1 (_ ∈ _)); vm_compute. }
    destruct (find soup (str "js_readMoreText")) as [e|];
      [by apply remove_superscripts_free|].
    destruct (find soup (str "js_readMoreContainer")) as [e|];
      [by apply remove_superscripts_free|done].
  - intros e ->. split; [done|apply Hlen].
  - intros e -> ->. split; [done|apply Hlen].
  - by intros -> ->.
Qed.

Lemma description_rule_spec_witness :
  description_rule
    {| find := λ c, if bool_decide (c = str "js_readMoreText")
                    then Some (text_tag (str "Sunny flat Read Less")) else None;
       find_all := λ _, []; select := λ _, []; select_one := λ _, None;
       find_div_class_containing := λ _, None |}
  = str "Sunny flat".
Proof.
  destruct (description_rule_spec
    {| find := λ c, if bool_decide (c = str "js_readMoreText")
                    then Some (text_tag (str "Sunny flat Read Less")) else None;
       find_all := λ _, []; select := λ _, []; select_one := λ _, None;
       find_div_class_containing := λ _, None |}) as (_ & Hfirst & _).
  destruct (Hfirst (text_tag (str "Sunny flat Read Less"))) as [-> _];
    by vm_compute.
Defined.

(** ** The record *)

Section KeyFacts.
Context `{UnicodeTables}.
Implicit Types (soup : Soup) (k : pystr).

Lemma crumb_lookup soup k i :
k ∈ [str "Province"; str "City"; str "Town"] →
own_rule soup k = VStr <$> crumbs soup !! i →
extract_listing_data soup !! k =
  match crumbs soup !! i with
  | Some c => Some (VStr c)
  | None => VStr <$> promoted soup k
  end.
Proof.
intros Hk Hown. rewrite extract_lookup, Hown.
rewrite bool_decide_eq_false_2.
- rewrite (bool_decide_eq_true_2 _ Hk).
  destruct (crumbs soup !! i); simpl; by destruct (promoted soup k).
- rewrite !elem_of_cons, elem_of_nil in Hk.
  destruct Hk as [->|[->|[->|[]]]];
    by apply (bool_decide_eq_false_1 (_ ∈ _)); vm_compute.
Qed.

Lemma extract_fixed_key soup k :
k ∈ [str "price"; str "size"; str "description"; str "features";
     str "address"; str "ListingNo"; str "image_url"] →
is_Some (extract_listing_data soup !! k).
Proof.
intros Hk.
assert (is_Some (own_rule soup k)) as Hown.
{ rewrite !elem_of_cons, elem_of_nil in Hk.
  destruct Hk as [->|[->|[->|[->|[->|[->|[->|[]]]]]]]];
    unfold own_rule; str_cases; by eexists. }
destruct (promoted soup k) as [p|] eqn:Hp.
- apply extract_promoted_is_Some. by rewrite Hp.
- by rewrite extract_unpromoted.
Qed.

Lemma extract_listing_no soup :
extract_listing_data soup !! str "ListingNo"
  = Some (VStr (listing_no_rule soup)).
Proof.
apply extract_late.
- by apply (bool_decide_unpack _); vm_compute.
- unfold own_rule. by str_cases.
Qed.
End KeyFacts.

(** X1: the location levels.  No breadcrumb kept is a separator, a
    navigation text or all digits.  The keys [Province], [City] and [Town]
    hold the first, second and third breadcrumb kept; a level the
    breadcrumbs do not reach is left to a promoted feature of that name,
    and is absent without one; so without such features the levels are
    filled from the left: a record with a town has a city, and one with a
    city has a province. *)
Theorem location_levels `{UnicodeTables} (soup : Soup) :
  (∀ text, text ∈ crumbs soup →
     (text ∉ [str "|"; str ">"; str "Back to Results"; str "Property for Sale"])
     ∧ isdigit text = false)
  ∧ extract_listing_data soup !! str "Province"
      = match crumbs soup !! 0 with
        | Some c => Some (VStr c)
        | None => VStr <$> promoted soup (str "Province")
        end
  ∧ extract_listing_data soup !! str "City"
      = match crumbs soup !! 1 with
        | Some c => Some (VStr c)
        | None => VStr <$> promoted soup (str "City")
        end
  ∧ extract_listing_data soup !! str "Town"
      = match crumbs soup !! 2 with
        | Some c => Some (VStr c)
        | None => VStr <$> promoted soup (str "Town")
        end
  ∧ (promoted soup (str "Province") = None →
     promoted soup (str "City") = None →
     promoted soup (str "Town") = None →
     (is_Some (extract_listing_data soup !! str "Town") →
        is_Some (extract_listing_data soup !! str "City"))
     ∧ (is_Some (extract_listing_data soup !! str "City") →
          is_Some (extract_listing_data soup !! str "Province"))
     ∧ (extract_listing_data soup !! str "Province" = None ↔ crumbs soup = [])).
Proof.
  assert (extract_listing_data soup !! str "Province"
      = match crumbs soup !! 0 with
        | Some c => Some (VStr c)
        | None => VStr <$> promoted soup (str "Province")
        end) as HP.
  { apply crumb_lookup; [by apply (bool_decide_unpack _); vm_compute|].
    unfold own_rule. by str_cases. }
  assert (extract_listing_data soup !! str "City"
      = match crumbs soup !! 1 with
        | Some c => Some (VStr c)
        | None => VStr <$> promoted soup (str "City")
        end) as HC.
  { apply crumb_lookup; [by apply (bool_decide_unpack _); vm_compute|].
    unfold own_rule. by str_cases. }
  assert (extract_listing_data soup !! str "Town"
      = match crumbs soup !! 2 with
        | Some c => Some (VStr c)
        | None => VStr <$> promoted soup (str "Town")
        end) as HT.
  { apply crumb_lookup; [by apply (bool_decide_unpack _); vm_compute|].
    unfold own_rule. by str_cases. }
  split_and!; [|done..|].
  - intros text Hin. unfold crumbs in Hin.
    by apply list_elem_of_filter in Hin as [[Hstop Hdigit] _].
  - intros HpP HpC HpT. rewrite HP, HC, HT, HpP, HpC, HpT.
    destruct (crumbs soup) as [|c0 [|c1 [|c2 rest]]]; simpl;
      split_and!; try done; try (by intros [? ?]); by eexists.
Qed.

Lemma location_levels_witness :
  @extract_listing_data ascii_only (page None []) !! str "Province" = None.
Proof.
  destruct (location_levels (H := ascii_only) (page None []))
    as (_ & _ & _ & _ & Hleft).
  destruct Hleft as (_ & _ & Hnone); [by vm_compute..|].
  apply Hnone. by vm_compute.
Defined.

(** X2: the keys of the record.  Whatever the page holds, the record has
    the keys [price], [size], [description], [features], [address],
    [ListingNo] and [image_url], and [ListingNo] is a string; so with the
    source link added the record is not empty, and the test under the lock
    finds the listing number and returns. *)
Theorem record_keys `{UnicodeTables} (soup : Soup) :
  (∀ k, k ∈ [str "price"; str "size"; str "description"; str "features";
             str "address"; str "ListingNo"; str "image_url"] →
     is_Some (extract_listing_data soup !! k))
  ∧ extract_listing_data soup !! str "ListingNo"
      = Some (VStr (listing_no_rule soup))
  ∧ extract_listing_data soup !! str "features"
      = Some (VList (plain_features soup))
  ∧ (∀ url g,
       truthy (Some (<[str "url" := VStr url]> (extract_listing_data soup))) = true
       ∧ ∃ r g',
           reserve_listing (<[str "url" := VStr url]> (extract_listing_data soup)) g
             = (inl r, g')).
Proof.
  split_and!.
  - apply extract_fixed_key.
  - apply extract_listing_no.
  - apply extract_late.
    + by apply (bool_decide_unpack _); vm_compute.
    + unfold own_rule. by str_cases.
  - intros url g. split.
    + change (truthy (Some ?d)) with (negb (bool_decide (d = ∅))).
      rewrite bool_decide_eq_false_2; [done|].
      intros Hempty. apply (f_equal (λ m : record, m !! str "url")) in Hempty.
      by rewrite lookup_insert_eq, lookup_empty in Hempty.
    + pose proof (reserve_listing_cases
        (<[str "url" := VStr url]> (extract_listing_data soup)) g) as Hcases.
      rewrite lookup_insert_ne, extract_listing_no in Hcases by str_neq.
      repeat case_bool_decide; by eexists _, _.
Qed.

Lemma record_keys_witness :
  is_Some (@extract_listing_data ascii_only (page None []) !! str "address").
Proof.
  apply (record_keys (H := ascii_only)).
  by apply (bool_decide_unpack _); vm_compute.
Defined.

(** ** Links *)

Section LinkFacts.
Context `{UnicodeTables}.
Implicit Types href : pystr.

Lemma startswith_slash c (s : pystr) :
startswith (c :: s) (str "/") = bool_decide (slash = c).
Proof.
replace (str "/") with [slash] by (by vm_compute).
destruct s; simpl; apply andb_true_r.
Qed.

(** A link that matches the listing pattern does not begin with a slash. *)
Lemma match_not_relative href :
re.match_ PROPERTY24_REGEX href = true → startswith href (str "/") = false.
Proof.
intros Hm. destruct href as [|c s]; [done|].
rewrite startswith_slash.
destruct (decide (c = slash)) as [->|Hc].
- by vm_compute in Hm.
- by rewrite bool_decide_eq_false_2.
Qed.

Lemma uint_digits_no_slash d : slash ∉ uint_digits d.
Proof.
induction d; simpl; try (by intros ?%elem_of_nil);
  by intros [?|?]%elem_of_cons.
Qed.

Lemma uint_digits_inj d d' : uint_digits d = uint_digits d' → d = d'.
Proof.
revert d'. induction d; intros []; simpl; intros Heq;
  try done; injection Heq as Heq; f_equal; by apply IHd.
Qed.
End LinkFacts.

(** X10: the rewriting of links.  A link that begins with a slash gets the
    host in front and every other link, the empty one too, is left as it
    is; the result never begins with a slash, so rewriting twice is
    rewriting once; and a link that matches the listing pattern is not
    changed. *)
Theorem absolute_spec `{UnicodeTables} (href : pystr) :
  (∀ path, absolute (slash :: path)
             = str "https://www.property24.com" ++ slash :: path)
  ∧ absolute [] = []
  ∧ (∀ c rest, c ≠ slash → absolute (c :: rest) = c :: rest)
  ∧ (startswith href (str "/") = false → absolute href = href)
  ∧ startswith (absolute href) (str "/") = false
  ∧ absolute (absolute href) = absolute href
  ∧ (re.match_ PROPERTY24_REGEX href = true → absolute href = href).
Proof.
  assert (startswith (absolute href) (str "/") = false) as Hrel.
  { unfold absolute. destruct (startswith href (str "/")) eqn:Hs; [|done].
    replace (str "https://www.property24.com")
      with (104%N :: str "ttps://www.property24.com") by (by vm_compute).
    rewrite <- app_comm_cons, startswith_slash. by vm_compute. }
  split_and!; [|done| | |done| |].
  - intros path. unfold absolute. by rewrite startswith_slash, bool_decide_eq_true_2.
  - intros c rest Hc. unfold absolute.
    rewrite startswith_slash, bool_decide_eq_false_2; [done|].
    intros Heq. by apply Hc.
  - intros Hs. unfold absolute. by rewrite Hs.
  - unfold absolute at 1. by rewrite Hrel.
  - intros Hm%match_not_relative. unfold absolute. by rewrite Hm.
Qed.

Lemma absolute_spec_witness :
  absolute (str "https://www.property24.com/for-sale/a/b/c/1/2")
    = str "https://www.property24.com/for-sale/a/b/c/1/2"
  ∧ absolute (str "contact.html") = str "contact.html".
Proof.
  destruct (absolute_spec (H := ascii_only)
              (str "https://www.property24.com/for-sale/a/b/c/1/2"))
    as (_ & _ & Hother & _ & _ & _ & Hmatch).
  split.
  - apply Hmatch. by vm_compute.
  - apply (Hother 99%N (str "ontact.html")). by vm_compute.
Defined.

(** X9: the search pages.  Different page numbers give different page
    links, and no page link matches the listing pattern, so a search page
    is never taken for a listing. *)
Theorem page_urls_spec `{UnicodeTables} (m n : nat) :
  (base_url_format m = base_url_format n → m = n)
  ∧ re.match_ PROPERTY24_REGEX (base_url_format n) = false.
Proof.
  split.
  - unfold base_url_format, str_of_nat. intros Heq%(inj (app _)).
    by apply DecimalNat.Unsigned.to_uint_inj, uint_digits_inj.
  - apply not_true_is_false. intros Hm%listing_url_slashes.
    unfold base_url_format, str_of_nat in Hm.
    rewrite count_slash_app, (count_slash_free (uint_digits _)) in Hm
      by apply uint_digits_no_slash.
    vm_compute in Hm. lia.
Qed.

Lemma page_urls_spec_witness : base_url_format 1 ≠ base_url_format 2.
Proof.
  intros Heq. by apply (page_urls_spec (H := ascii_only) 1 2) in Heq.
Defined.

(** ** Batches *)

Section GroupFacts.
Context {A : Type}.
Implicit Types lst : list A.

Lemma chunker_sizes lst n groups :
0 < n → chunker lst n = inl groups →
length <$> groups
  = replicate (length lst / n) n
      ++ (if decide (length lst mod n = 0) then [] else [length lst mod n]).
Proof.
intros Hn Hc.
pose proof (Nat.div_mod_eq (length lst) n) as Hdm.
pose proof (Nat.mod_upper_bound (length lst) n ltac:(lia)) as Hr.
destruct (chunks_shape (length lst / n) lst n (length lst mod n) Hn Hr
            ltac:(lia)) as (groups' & Hc' & _ & Hsz & _).
rewrite Hc in Hc'. by injection Hc' as <-.
Qed.
End GroupFacts.

(** X7: batches of mapped tasks.  Cutting a mapped list into batches is
    mapping the batches of the list, so the batches of tasks are the tasks
    of the batches of links; no batch is empty and none has more than [n]
    elements. *)
Theorem chunker_fmap {A B} (f : A → B) (lst : list A) (n : nat) :
  chunker (f <$> lst) n
    = match chunker lst n with
      | inl groups => inl ((λ g : list A, f <$> g) <$> groups)
      | inr e => inr e
      end
  ∧ (∀ groups, 0 < n → chunker lst n = inl groups →
       Forall (λ g, 0 < length g ≤ n) groups).
Proof.
  split.
  - unfold chunker. destruct n as [|n']; [done|]. f_equal.
    rewrite length_fmap, <- !list_fmap_compose.
    apply list_fmap_ext. intros _ i _. simpl. unfold slice.
    by rewrite fmap_take, fmap_drop.
  - intros groups Hn Hc.
    pose proof (chunker_sizes lst n groups Hn Hc) as Hsz.
    pose proof (Nat.mod_upper_bound (length lst) n ltac:(lia)) as Hr.
    assert (Forall (λ k, 0 < k ≤ n) (length <$> groups)) as Hall.
    { rewrite Hsz. apply Forall_app. split.
      - apply Forall_replicate. lia.
      - case_decide; [constructor|]. apply Forall_singleton. lia. }
    by apply Forall_fmap in Hall.
Qed.

Lemma chunker_fmap_witness :
  Forall (λ g, 0 < length g ≤ 2) [[1; 2]; [3]].
Proof. apply (chunker_fmap S [1; 2; 3] 2); [lia|reflexivity]. Defined.

(** X8: the batch total in the progress message of phase 2.  The message
    announces [len(listing_tasks)//batch_size + 1] batches; that is the
    number of batches run when the number of tasks is no multiple of the
    batch size, and one more than are run when it is, also for no tasks at
    all. *)
Theorem announced_batches_spec {A} (listing_tasks : list A) groups :
  chunker listing_tasks batch_size = inl groups →
  announced_batches listing_tasks
    = length groups
      + (if decide (length listing_tasks mod batch_size = 0) then 1 else 0).
Proof.
  intros Hc.
  pose proof (chunker_sizes listing_tasks batch_size groups
                ltac:(unfold batch_size; lia) Hc) as Hsz.
  apply (f_equal length) in Hsz.
  rewrite length_fmap, length_app, length_replicate in Hsz.
  unfold announced_batches. rewrite Hsz. case_decide; simpl; lia.
Qed.

Lemma announced_batches_spec_witness :
  announced_batches (seq 0 20) = 2 + 1.
Proof.
  apply (announced_batches_spec (seq 0 20)
           [seq 0 10; seq 10 10]).
  reflexivity.
Defined.

(** ** Invariants of the batch driver *)

Lemma length_omap_le {A B} (f : A → option B) (l : list A) :
  length (omap f l) ≤ length l.
Proof.
  induction l as [|x l IH]; [done|].
  change (omap f (x :: l)) with
    (match f x with Some y => y :: omap f l | None => omap f l end).
  destruct (f x); simpl; lia.
Qed.

Section KeepFacts.
Context {R : Type}.
Variable I : Globals → Prop.
Variable P : R → Prop.
Implicit Types (g : Globals) (batch : list (M R)) (order : list nat)
(finished : gmap nat R).

Lemma run_in_order_keeps batch order : ∀ finished g,
Forall (keeps I P) batch →
I g → map_Forall (λ _, P) finished →
∃ finished' g',
  run_in_order batch order finished g = (inl finished', g')
  ∧ I g' ∧ map_Forall (λ _, P) finished'
  ∧ data_bun g' = data_bun g.
Proof.
induction order as [|i order IH]; intros finished g Hbatch HI HP.
- by exists finished, g.
- simpl. destruct (batch !! i) as [task|] eqn:Hi; [|by apply IH].
  assert (keeps I P task) as Htask.
  { rewrite Forall_forall in Hbatch. apply Hbatch.
    by eapply list_elem_of_lookup_2. }
  destruct (Htask g HI) as (r & g1 & Hrun & HI1 & HPr & Hbun).
  rewrite (bind_inl _ _ _ _ _ Hrun).
  destruct (IH (<[i := r]> finished) g1 Hbatch HI1)
    as (fin' & g' & Hrest & HI' & HP' & Hbun').
  { by apply map_Forall_insert_2. }
  exists fin', g'. split_and!; [done..|congruence].
Qed.

(** A batch of coroutines that keep an invariant keeps it, whatever the
  order they finish in; each of its results satisfies what the results
  of the coroutines do, and there are no more results than coroutines. *)
Lemma gather_keeps batch order :
Forall (keeps I P) batch →
keeps I (λ results, Forall P results ∧ length results ≤ length batch)
  (gather batch order).
Proof.
intros Hbatch g HI.
destruct (run_in_order_keeps batch order ∅ g Hbatch HI)
  as (fin & g' & Hrun & HI' & HP & Hbun); [apply map_Forall_empty|].
unfold gather. rewrite (bind_inl _ _ _ _ _ Hrun).
eexists _, g'. split; [reflexivity|]. split_and!; [done| |  |done].
- apply Forall_forall. intros r (i & _ & Hi)%list_elem_of_omap.
  by apply (HP i).
- etrans; [apply length_omap_le|]. by rewrite length_seq.
Qed.
End KeepFacts.

Section PhaseKeepFacts.
Context `{UnicodeTables} `{World}.
Variable I : Globals → Prop.
Implicit Types (g : Globals) (schedule : list (list nat)).

Lemma page_batches_keeps (P : pystr → Prop) batches : ∀ schedule all_listing_links,
Forall (Forall (keeps I (Forall P))) batches →
Forall P all_listing_links →
keeps I (Forall P) (page_batches batches schedule all_listing_links).
Proof.
induction batches as [|batch batches IH];
  intros schedule links0 Hbatches Hall g HI.
- by exists links0, g.
- apply Forall_cons in Hbatches as [Hbatch Hbatches]. simpl.
  destruct (gather_keeps I (Forall P) batch (default [] (head schedule)) Hbatch g HI)
    as (results & g1 & Hg & HI1 & [HP _] & Hbun).
  rewrite (bind_inl _ _ _ _ _ Hg).
  destruct (IH (tail schedule) (links0 ++ concat results) Hbatches) with (g := g1)
    as (links & g' & Hrest & HI' & HP' & Hbun'); [|done|].
  + apply Forall_app. split; [done|]. apply Forall_forall.
    intros x (l & Hl & Hx)%elem_of_concat.
    rewrite Forall_forall in HP. specialize (HP l Hl).
    rewrite Forall_forall in HP. by apply HP.
  + exists links, g'. split_and!; [done..|congruence].
Qed.

Lemma listing_batches_keeps (Q : record → Prop) batches : ∀ schedule g,
(∀ g bun, I g → I (set_data_bun g bun)) →
Forall (Forall (keeps I (λ r, ∀ d, r = Some d → Q d))) batches →
I g → Forall Q (data_bun g) →
∃ g', listing_batches batches schedule g = (inl (), g')
  ∧ I g' ∧ Forall Q (data_bun g')
  ∧ length (data_bun g') ≤ length (data_bun g) + length (concat batches).
Proof.
intros schedule g Hset. revert schedule g.
induction batches as [|batch batches IH]; intros schedule g Hbatches HI HQ.
- exists g. split_and!; [done..|simpl; lia].
- apply Forall_cons in Hbatches as [Hbatch Hbatches]. simpl.
  destruct (gather_keeps I _ batch (default [] (head schedule)) Hbatch g HI)
    as (results & g1 & Hg & HI1 & [HP Hlen] & Hbun).
  rewrite (bind_inl _ _ _ _ _ Hg).
  rewrite (bind_inl _ _ _ _ _ (collect_spec results g1)).
  destruct (IH (tail schedule) (set_data_bun g1 (data_bun g1 ++ collected results)))
    as (g' & Hrun & HI' & HQ' & Hlen'); [done|by apply Hset| |].
  + simpl. rewrite Hbun. apply Forall_app. split; [done|].
    apply Forall_forall. intros d (r & Hr & Hd)%list_elem_of_omap.
    rewrite Forall_forall in HP. apply (HP r Hr).
    by destruct (truthy r).
  + exists g'. split_and!; [done..|].
    simpl in Hlen'. rewrite length_app, Hbun in Hlen'.
    pose proof (length_omap_le (λ data, if truthy data then data else None) results).
    fold (collected results) in *. rewrite length_app. lia.
Qed.
End PhaseKeepFacts.

(** ** The tasks, once more *)

Section TaskMoreFacts.
Context `{UnicodeTables} `{Collaborators}.
Implicit Types (g : Globals) (url href : pystr) (links : gset pystr).

Lemma link_step_match links a g :
match link_step links a g with
| (inl links', g') =>
    (∀ x, x ∈ links' → x ∈ links ∨ re.match_ PROPERTY24_REGEX x = true)
    ∧ (∀ x, x ∈ scraped_links g' →
         x ∈ scraped_links g ∨ re.match_ PROPERTY24_REGEX x = true)
    ∧ listing_nums g' = listing_nums g
| (inr _, g') => g' = g
end.
Proof.
unfold link_step, tag_getitem.
destruct (tag_attrs a !! str "href") as [href|]; [|done].
rewrite bind_ret.
destruct (reserve_url_cases (absolute href) g) as [(Hr & Hm & _)|(Hr & _)];
  rewrite (bind_inl _ _ _ _ _ Hr); cbn.
- split_and!; [| |done].
  + intros x [->%elem_of_singleton|Hx]%elem_of_union; [by right|by left].
  + intros x [->%elem_of_singleton|Hx]%elem_of_union; [by right|by left].
- split_and!; [| |done]; intros x Hx; by left.
Qed.

Lemma scan_links_match anchors : ∀ links g,
match for_each anchors links link_step g with
| (inl links', g') =>
    (∀ x, x ∈ links' → x ∈ links ∨ re.match_ PROPERTY24_REGEX x = true)
    ∧ (∀ x, x ∈ scraped_links g' →
         x ∈ scraped_links g ∨ re.match_ PROPERTY24_REGEX x = true)
    ∧ listing_nums g' = listing_nums g
| (inr _, g') =>
    (∀ x, x ∈ scraped_links g' →
       x ∈ scraped_links g ∨ re.match_ PROPERTY24_REGEX x = true)
    ∧ listing_nums g' = listing_nums g
end.
Proof.
induction anchors as [|a anchors IH]; intros links g; simpl.
- split_and!; [| |done]; intros x Hx; by left.
- pose proof (link_step_match links a g) as Hstep.
  destruct (link_step links a g) as [[links1|e] g1] eqn:Hl.
  + rewrite (bind_inl _ _ _ _ _ Hl).
    destruct Hstep as (Hl1 & Hs1 & Hn1). specialize (IH links1 g1).
    destruct (for_each anchors links1 link_step g1) as [[links2|e] g2].
    * destruct IH as (Hl2 & Hs2 & Hn2). split_and!; [| |congruence].
      -- intros x Hx. destruct (Hl2 x Hx) as [Hx1|?]; [|by right].
         by apply Hl1.
      -- intros x Hx. destruct (Hs2 x Hx) as [Hx1|?]; [|by right].
         by apply Hs1.
    * destruct IH as (Hs2 & Hn2). split; [|congruence].
      intros x Hx. destruct (Hs2 x Hx) as [Hx1|?]; [|by right].
      by apply Hs1.
  + rewrite (bind_inr _ _ _ _ _ Hl). subst g1. split; [|done].
    intros x Hx. by left.
Qed.

(** What a page task that returns has returned and done to the globals. *)
Lemma async_scrape_page_returned url g found g' :
async_scrape_page url g = (inl found, g') →
(∀ x, x ∈ found →
   re.match_ PROPERTY24_REGEX x = true ∧ x ∈ scraped_links g')
∧ (∀ x, x ∈ scraped_links g' →
     x ∈ scraped_links g ∨ re.match_ PROPERTY24_REGEX x = true)
∧ listing_nums g' = listing_nums g
∧ data_bun g' = data_bun g.
Proof.
assert (∀ res : list pystr + exn, (inl [], g) = (res, g') →
          res = inl found →
          (∀ x, x ∈ found →
             re.match_ PROPERTY24_REGEX x = true ∧ x ∈ scraped_links g')
          ∧ (∀ x, x ∈ scraped_links g' →
               x ∈ scraped_links g ∨ re.match_ PROPERTY24_REGEX x = true)
          ∧ listing_nums g' = listing_nums g
          ∧ data_bun g' = data_bun g) as Hfail.
{ intros res [= <- <-] [= <-]. split_and!; [|by left|done..].
  by intros x ?%elem_of_nil. }
pose proof (async_scrape_page_outcome url g) as Hout. intros Hrun.
destruct (session_get url) as [r|e].
2: { rewrite Hout in Hrun. destruct (is_Exception e); [|done].
     by eapply Hfail. }
case_bool_decide; [|rewrite Hout in Hrun; by eapply Hfail].
destruct (BeautifulSoup (text r)) as [soup|e].
2: { rewrite Hout in Hrun. destruct (is_Exception e); [|done].
     by eapply Hfail. }
rewrite Hout in Hrun. clear Hfail Hout.
pose proof (scan_links_match (select soup (str "a[href]")) ∅ g) as Hmatch.
pose proof (scan_links_spec (select soup (str "a[href]")) ∅ g) as Hspec.
destruct (for_each _ ∅ link_step g) as [[links|e] g1];
  injection Hrun as <- <-.
- destruct Hmatch as (Hl & Hs & Hn). destruct Hspec as (Hfresh & _ & _ & Hbun).
  split_and!; [|done..]. intros x Hx%elem_of_elements. split.
  + destruct (Hl x Hx) as [Hx0|?]; [|done]. by apply elem_of_empty in Hx0.
  + destruct (Hfresh x Hx) as [Hx0|[_ ?]]; [|done]. by apply elem_of_empty in Hx0.
- destruct Hmatch as (Hs & Hn). destruct Hspec as (_ & _ & Hbun).
  split_and!; [|done..]. by intros x ?%elem_of_nil.
Qed.

End TaskMoreFacts.

Section WorldTaskMoreFacts.
Context `{UnicodeTables} `{World}.
Implicit Types (g : Globals) (url href : pystr) (links : gset pystr).

(** What a page task returns and what it does to the globals. *)
Lemma async_scrape_page_match url g :
∃ found g',
  async_scrape_page url g = (inl found, g')
  ∧ (∀ x, x ∈ found → re.match_ PROPERTY24_REGEX x = true)
  ∧ (∀ x, x ∈ scraped_links g' →
       x ∈ scraped_links g ∨ re.match_ PROPERTY24_REGEX x = true)
  ∧ listing_nums g' = listing_nums g.
Proof.
destruct (async_scrape_page_reserving url g) as (found & g' & Hrun & _).
destruct (async_scrape_page_returned url g found g' Hrun) as (Hm & Hs & Hn & _).
exists found, g'. split_and!; [done| |done..]. intros x Hx. by apply Hm.
Qed.

Lemma page_fails url g :
fetch_or_parse_fails url → async_scrape_page url g = (inl [], g).
Proof.
intros Hfail. unfold fetch_or_parse_fails in Hfail.
destruct (session_get url) as [r|e] eqn:Hget; [|by eapply page_fetch_fails].
destruct (decide (200 ≤ status_code r < 400)%Z) as [Hok|Hbad];
  [|by eapply page_status_fails].
destruct Hfail as [?|[e He]]; [done|]. by eapply page_parse_fails.
Qed.

(** What a listing task returns and what it does to the globals. *)
Lemma async_scrape_listing_cases url g :
(async_scrape_listing url g = (inl None, g))
∨ ∃ r soup,
    session_get url = inl r ∧ BeautifulSoup (text r) = inl soup
    ∧ ((async_scrape_listing url g
          = (inl (Some (<[str "url" := VStr url]> (extract_listing_data soup))), g)
        ∧ listing_no_rule soup = str "None")
       ∨ (async_scrape_listing url g
            = (inl (Some (<[str "url" := VStr url]> (extract_listing_data soup))),
               {| scraped_links := scraped_links g;
                  listing_nums := {[VStr (listing_no_rule soup)]} ∪ listing_nums g;
                  data_bun := data_bun g |})
          ∧ listing_no_rule soup ≠ str "None"
          ∧ VStr (listing_no_rule soup) ∉ listing_nums g)).
Proof.
destruct (session_get url) as [r|e] eqn:Hget;
  [|left; by eapply listing_fetch_fails].
destruct (decide (200 ≤ status_code r < 400)%Z) as [Hok|Hbad];
  [|left; by eapply listing_status_fails].
destruct (BeautifulSoup (text r)) as [soup|e] eqn:Hparse;
  [|left; by eapply listing_parse_fails].
rewrite (listing_parsed url g r soup) by done.
pose proof (reserve_listing_cases
  (<[str "url" := VStr url]> (extract_listing_data soup)) g) as Hcases.
rewrite lookup_insert_ne, extract_listing_no in Hcases by str_neq.
case_bool_decide as Hsent.
{ right. exists r, soup. split_and!; [done..|]. left.
  rewrite Hcases. split; [done|]. by injection Hsent. }
case_bool_decide as Hin; rewrite Hcases.
- by left.
- right. exists r, soup. split_and!; [done..|]. right.
  split_and!; [done| |done]. intros Heq. apply Hsent. by rewrite Heq.
Qed.
End WorldTaskMoreFacts.

(** ** The run, once more *)

Lemma length_le_size `{Countable T} (l : list T) (X : gset T) :
  NoDup l → (∀ x, x ∈ l → x ∈ X) → length l ≤ size X.
Proof.
  intros Hnd Hsub. rewrite <- (size_list_to_set (C := gset T) l Hnd).
  apply subseteq_size. intros x Hx%elem_of_list_to_set. by apply Hsub.
Qed.

Section RunFacts.
Context `{UnicodeTables} `{World}.
Implicit Types (g : Globals) (schedule : list (list nat)) (url : pystr).

Lemma page_task_keeps (S0 : gset pystr) (N0 : gset pyval) url :
keeps
  (λ g, (∀ x, x ∈ scraped_links g →
           x ∈ S0 ∨ re.match_ PROPERTY24_REGEX x = true)
        ∧ listing_nums g = N0)
  (Forall (λ x, re.match_ PROPERTY24_REGEX x = true))
  (async_scrape_page url).
Proof.
intros g [Hs Hn].
destruct (async_scrape_page_match url g) as (found & g' & Hrun & Hm & Hs' & Hn').
destruct (async_scrape_page_reserving url g) as (found2 & g2 & Hrun2 & _ & _ & _ & Hbun).
rewrite Hrun in Hrun2. injection Hrun2 as <- <-.
exists found, g'. split_and!; [done| |congruence|by apply Forall_forall|done].
intros x Hx. destruct (Hs' x Hx) as [Hx0|?]; [by apply Hs|by right].
Qed.

Lemma phase1_more schedule g :
∃ links g',
  phase1 schedule g = (inl links, g')
  ∧ NoDup links
  ∧ (∀ x, x ∈ links →
       re.match_ PROPERTY24_REGEX x = true ∧ x ∈ scraped_links g')
  ∧ (∀ x, x ∈ scraped_links g' →
       x ∈ scraped_links g ∨ re.match_ PROPERTY24_REGEX x = true)
  ∧ listing_nums g' = listing_nums g
  ∧ data_bun g' = data_bun g.
Proof.
unfold phase1.
set (page_tasks := (λ page_num, async_scrape_page (base_url_format page_num))
                     <$> seq 1 max_pages_to_scrape).
destruct (chunker_returns page_tasks batch_size ltac:(unfold batch_size; lia))
  as (batches & Hc & _).
rewrite Hc.
change ((lift (inl batches) ≫= _) g) with (page_batches batches schedule [] g).
destruct (page_batches_spec batches schedule [] g)
  as (links & g' & Hrun & Hnd & Hin & Hbun).
{ apply (chunker_Forall _ page_tasks batch_size); [|done].
  unfold page_tasks. apply Forall_fmap, Forall_forall. intros n _.
  apply async_scrape_page_reserving. }
{ constructor. }
{ by intros x ?%elem_of_nil. }
destruct (page_batches_keeps
            (λ g0, (∀ x, x ∈ scraped_links g0 →
                      x ∈ scraped_links g ∨ re.match_ PROPERTY24_REGEX x = true)
                   ∧ listing_nums g0 = listing_nums g)
            (λ x, re.match_ PROPERTY24_REGEX x = true)
            batches schedule []) with (g := g)
  as (links2 & g2 & Hrun2 & [Hs Hn] & Hm & _).
{ apply (chunker_Forall _ page_tasks batch_size); [|done].
  unfold page_tasks. apply Forall_fmap, Forall_forall. intros n _.
  apply (page_task_keeps (scraped_links g) (listing_nums g)). }
{ constructor. }
{ split; [|done]. intros x Hx. by left. }
rewrite Hrun in Hrun2. injection Hrun2 as <- <-.
exists links, g'. split_and!; [done..| |done|done|done].
intros x Hx. split; [|by apply Hin].
rewrite Forall_forall in Hm. by apply Hm.
Qed.

Lemma listing_task_keeps (S1 : gset pystr) (links : list pystr) url :
url ∈ links →
keeps
  (λ g, scraped_links g = S1 ∧ VStr (str "None") ∉ listing_nums g)
  (λ r, ∀ d, r = Some d → saved_from links d)
  (async_scrape_listing url).
Proof.
intros Hurl g [Hs Hn].
destruct (async_scrape_listing_cases url g)
  as [Hnone|(r & soup & _ & _ & [[Hrun Hno]|(Hrun & Hno & Hfresh)])].
- exists None, g. split_and!; done.
- eexists _, g. split; [exact Hrun|]. split_and!; [done..| |done].
  intros d [= <-]. exists url. split_and!; [done|by rewrite lookup_insert_eq|].
  intros k Hk. destruct (decide (k = str "url")) as [->|Hne].
  + rewrite lookup_insert_eq. by eexists.
  + rewrite lookup_insert_ne by done. by apply extract_fixed_key.
- eexists _, _. split; [exact Hrun|]. simpl. split_and!; [done| | |done].
  + intros [Hin|Hin]%elem_of_union; [|done].
    apply elem_of_singleton in Hin. injection Hin as Hin. by apply Hno.
  + intros d [= <-]. exists url. split_and!; [done|by rewrite lookup_insert_eq|].
    intros k Hk. destruct (decide (k = str "url")) as [->|Hne].
    * rewrite lookup_insert_eq. by eexists.
    * rewrite lookup_insert_ne by done. by apply extract_fixed_key.
Qed.

(** The run from the initial state, with what it keeps. *)
Lemma main_run schedule1 schedule2 :
∃ links g1 g',
  phase1 schedule1 initial_globals = (inl links, g1)
  ∧ main schedule1 schedule2 initial_globals = (inl (), g')
  ∧ NoDup links
  ∧ (∀ x, x ∈ links →
       re.match_ PROPERTY24_REGEX x = true ∧ x ∈ scraped_links g')
  ∧ (∀ x, x ∈ scraped_links g' → re.match_ PROPERTY24_REGEX x = true)
  ∧ scraped_links g' = scraped_links g1
  ∧ (VStr (str "None") ∉ listing_nums g')
  ∧ Forall (saved_from links) (data_bun g')
  ∧ length (data_bun g') ≤ length links
  ∧ data_bun_distinct g'.
Proof.
destruct (phase1_more schedule1 initial_globals)
  as (links & g1 & Hp1 & Hnd & Hlinks & Hs1 & Hn1 & Hb1).
exists links, g1. unfold main. rewrite (bind_inl _ _ _ _ _ Hp1).
destruct (phase2_spec links schedule2 g1) as (g' & Hp2 & Hdistinct).
{ unfold data_bun_distinct. rewrite Hb1. simpl.
  split; [constructor|]. by intros x ?%elem_of_nil. }
exists g'. split; [done|]. split; [done|].
unfold phase2 in Hp2.
destruct (chunker_returns (async_scrape_listing <$> links) batch_size
            ltac:(unfold batch_size; lia)) as (batches & Hc & Hcat).
rewrite Hc in Hp2.
change ((lift (inl batches) ≫= _) g1)
  with (listing_batches batches schedule2 g1) in Hp2.
destruct (listing_batches_keeps
            (λ g, scraped_links g = scraped_links g1
                  ∧ VStr (str "None") ∉ listing_nums g)
            (saved_from links) batches schedule2 g1)
  as (g2 & Hrun & [Hs2 Hn2] & HQ & Hlen).
{ by intros g bun [? ?]. }
{ apply (chunker_Forall _ _ batch_size) with (2 := Hc).
  apply Forall_fmap, Forall_forall. intros url Hurl.
  by apply listing_task_keeps. }
{ split; [done|]. rewrite Hn1. simpl. apply not_elem_of_empty. }
{ rewrite Hb1. constructor. }
rewrite Hp2 in Hrun. injection Hrun as <-.
split_and!; [done| | |done|done|done| |done].
- intros x Hx. destruct (Hlinks x Hx). split; [done|]. by rewrite Hs2.
- intros x Hx. rewrite Hs2 in Hx.
  destruct (Hs1 x Hx) as [Hx0|?]; [|done]. by apply elem_of_empty in Hx0.
- rewrite Hb1, Hcat, length_fmap in Hlen. simpl in Hlen. lia.
Qed.
End RunFacts.



(** X12: what a listing task hands on.  A listing task never changes
    [scraped_links] or [data_bun].  When it returns [None] it changes
    nothing.  When it returns a record, the page was fetched and parsed,
    the record is the extracted one with the key [url] set to the link of
    the task, whatever a promoted feature of that name held, and
    [listing_nums] is as before or has gained the listing number of the
    record. *)
Theorem listing_record_spec `{UnicodeTables} `{World} (url : pystr) g r g' :
  async_scrape_listing url g = (inl r, g') →
  scraped_links g' = scraped_links g
  ∧ data_bun g' = data_bun g
  ∧ match r with
    | None => g' = g
    | Some d =>
        ∃ response soup,
          session_get url = inl response
          ∧ BeautifulSoup (text response) = inl soup
          ∧ d !! str "url" = Some (VStr url)
          ∧ (∀ k, k ≠ str "url" → d !! k = extract_listing_data soup !! k)
          ∧ (listing_nums g' = listing_nums g
             ∨ listing_nums g' = {[VStr (listing_no_rule soup)]} ∪ listing_nums g)
    end.
Proof.
  intros Hrun.
  destruct (async_scrape_listing_cases url g)
    as [Hnone|(resp & soup & Hget & Hparse & [[Hcase Hno]|(Hcase & Hno & Hfresh)])];
    rewrite Hrun in *; simplify_eq/=.
  - done.
  - split_and!; [done..|]. exists resp, soup. split_and!; [done..| | |by left].
    + by rewrite lookup_insert_eq.
    + intros k Hk. by rewrite lookup_insert_ne.
  - split_and!; [done..|]. exists resp, soup. split_and!; [done..| | |by right].
    + by rewrite lookup_insert_eq.
    + intros k Hk. by rewrite lookup_insert_ne.
Qed.

Lemma listing_record_spec_witness :
  ∃ r g',
    @async_scrape_listing ascii_only example_world (str "u") initial_globals
      = (inl r, g')
    ∧ scraped_links g' = ∅ ∧ data_bun g' = [].
Proof.
  destruct (@async_scrape_listing ascii_only example_world (str "u") initial_globals)
    as [[r|e] g'] eqn:Hrun; [|by vm_compute in Hrun].
  exists r, g'. split; [done|].
  destruct (listing_record_spec (H := ascii_only) (H0 := example_world)
              _ _ _ _ Hrun) as (Hs & Hb & _).
  by rewrite Hs, Hb.
Defined.

(** X13: the first listing wins.  Of two listing tasks whose pages give
    the same listing number, other than the string [None] and not yet in
    [listing_nums], run one after the other, the first returns its record
    and the second returns [None] and changes nothing. *)
Theorem first_listing_wins `{UnicodeTables} `{World}
    (url1 url2 : pystr) g r1 r2 soup1 soup2 :
  session_get url1 = inl r1 → (200 ≤ status_code r1 < 400)%Z →
  BeautifulSoup (text r1) = inl soup1 →
  session_get url2 = inl r2 → (200 ≤ status_code r2 < 400)%Z →
  BeautifulSoup (text r2) = inl soup2 →
  listing_no_rule soup1 = listing_no_rule soup2 →
  listing_no_rule soup1 ≠ str "None" →
  VStr (listing_no_rule soup1) ∉ listing_nums g →
  ∃ g1,
    async_scrape_listing url1 g
      = (inl (Some (<[str "url" := VStr url1]> (extract_listing_data soup1))), g1)
    ∧ async_scrape_listing url2 g1 = (inl None, g1)
    ∧ listing_nums g1 = {[VStr (listing_no_rule soup1)]} ∪ listing_nums g.
Proof.
  intros Hget1 Hok1 Hparse1 Hget2 Hok2 Hparse2 Hsame Hno Hfresh.
  assert (∀ url soup, (<[str "url" := VStr url]> (extract_listing_data soup) : record)
            !! str "ListingNo" = Some (VStr (listing_no_rule soup))) as Hlookup.
  { intros url soup. rewrite lookup_insert_ne by str_neq. apply extract_listing_no. }
  eexists. split_and!.
  - rewrite (listing_parsed url1 g r1 soup1) by done.
    pose proof (reserve_listing_cases
      (<[str "url" := VStr url1]> (extract_listing_data soup1)) g) as Hcases.
    rewrite Hlookup in Hcases.
    rewrite bool_decide_eq_false_2 in Hcases by (by intros [= ?]).
    rewrite bool_decide_eq_false_2 in Hcases by done.
    rewrite Hcases. reflexivity.
  - rewrite (listing_parsed url2 _ r2 soup2) by done.
    match goal with
    | |- context [reserve_listing ?d ?g0] =>
        pose proof (reserve_listing_cases d g0) as Hcases
    end.
    rewrite Hlookup, <- Hsame in Hcases.
    rewrite bool_decide_eq_false_2 in Hcases by (by intros [= ?]).
    rewrite bool_decide_eq_true_2 in Hcases.
    + by rewrite Hcases.
    + simpl. apply elem_of_union_l. by apply elem_of_singleton.
  - done.
Qed.

Lemma first_listing_wins_witness :
  ∃ g1,
    @async_scrape_listing ascii_only example_world (str "u1") initial_globals
      = (inl (Some (<[str "url" := VStr (str "u1")]>
                      (@extract_listing_data ascii_only example_soup))), g1)
    ∧ @async_scrape_listing ascii_only example_world (str "u2") g1 = (inl None, g1)
    ∧ listing_nums g1 = {[VStr (listing_no_rule example_soup)]} ∪ ∅.
Proof.
  apply (first_listing_wins (H := ascii_only) (H0 := example_world)
           (str "u1") (str "u2") initial_globals
           {| status_code := 200; text := [] |} {| status_code := 200; text := [] |}
           example_soup example_soup);
    try reflexivity; try (simpl; lia).
  - by vm_compute.
  - simpl. apply not_elem_of_empty.
Defined.

(** X14: the listing numbers.  After a run of [main] from the initial
    state, under any schedules, the string [None] is not in
    [listing_nums]; every other listing number of a record in [data_bun] is
    in [listing_nums]; so there are no more records with a listing number
    than listing numbers. *)
Theorem listing_numbers_spec `{UnicodeTables} `{World} schedule1 schedule2 :
  ∃ g',
    main schedule1 schedule2 initial_globals = (inl (), g')
    ∧ (VStr (str "None") ∉ listing_nums g')
    ∧ (∀ d no, d ∈ data_bun g' → d !! str "ListingNo" = Some no →
         no ≠ VStr (str "None") → no ∈ listing_nums g')
    ∧ length (concat (record_ids <$> data_bun g')) ≤ size (listing_nums g').
Proof.
  destruct (main_run schedule1 schedule2)
    as (links & g1 & g' & _ & Hrun & _ & _ & _ & _ & Hsent & _ & _ & [Hnd Hin]).
  exists g'. split_and!; [done..| |by apply length_le_size].
  intros d no Hd Hno Hne. apply Hin. apply elem_of_concat.
  exists (record_ids d). split.
  - apply list_elem_of_fmap. by exists d.
  - unfold record_ids. rewrite Hno, bool_decide_eq_false_2 by done. left.
Qed.

Lemma listing_numbers_spec_witness :
  ∃ g',
    @main ascii_only example_world [[3; 1; 2; 0; 9; 8; 7; 6; 5; 4]] [[0]]
      initial_globals = (inl (), g')
    ∧ length (concat (record_ids <$> data_bun g')) ≤ size (listing_nums g').
Proof.
  destruct (listing_numbers_spec (H := ascii_only) (H0 := example_world)
              [[3; 1; 2; 0; 9; 8; 7; 6; 5; 4]] [[0]]) as (g' & Hrun & _ & _ & Hlen).
  exists g'. split; [exact Hrun|exact Hlen].
Defined.

(** X15: the saved records.  After a run of [main] from the initial
    state, under any schedules, every record in [data_bun] has a [url] that
    is one of the links phase 1 returned, matches the listing pattern and
    is in [scraped_links], and has the keys [price], [size],
    [description], [features], [address], [ListingNo] and [image_url];
    there are no more records than links, and no more links than
    [scraped_links] holds. *)
Theorem saved_records_spec `{UnicodeTables} `{World} schedule1 schedule2 :
  ∃ links g1 g',
    phase1 schedule1 initial_globals = (inl links, g1)
    ∧ main schedule1 schedule2 initial_globals = (inl (), g')
    ∧ (∀ d, d ∈ data_bun g' →
         ∃ u, d !! str "url" = Some (VStr u)
              ∧ u ∈ links
              ∧ re.match_ PROPERTY24_REGEX u = true
              ∧ u ∈ scraped_links g'
              ∧ ∀ k, k ∈ [str "price"; str "size"; str "description";
                          str "features"; str "address"; str "ListingNo";
                          str "image_url"] →
                     is_Some (d !! k))
    ∧ length (data_bun g') ≤ length links
    ∧ length links ≤ size (scraped_links g').
Proof.
  destruct (main_run schedule1 schedule2)
    as (links & g1 & g' & Hp1 & Hrun & Hnd & Hlinks & _ & _ & _ & HQ & Hlen & _).
  exists links, g1, g'. split_and!; [done..| |done|].
  - intros d Hd. rewrite Forall_forall in HQ.
    destruct (HQ d Hd) as (u & Hu & Hurl & Hkeys).
    destruct (Hlinks u Hu). by exists u.
  - apply length_le_size; [done|]. intros x Hx. by apply Hlinks.
Qed.

Lemma saved_records_spec_witness :
  ∃ g',
    @main ascii_only example_world [[3; 1; 2; 0; 9; 8; 7; 6; 5; 4]] [[0]]
      initial_globals = (inl (), g')
    ∧ length (data_bun g') ≤ size (scraped_links g').
Proof.
  destruct (saved_records_spec (H := ascii_only) (H0 := example_world)
              [[3; 1; 2; 0; 9; 8; 7; 6; 5; 4]] [[0]])
    as (links & g1 & g' & _ & Hrun & _ & Hlen1 & Hlen2).
  exists g'. split; [exact Hrun|exact (Nat.le_trans _ _ _ Hlen1 Hlen2)].
Defined.

(** X16: a run in which every fetch or parse fails.  When the fetch or
    the parse of every link fails, [main] returns and leaves the globals
    as they were: nothing is reserved and nothing is collected. *)
Theorem total_failure_spec `{UnicodeTables} `{World} schedule1 schedule2 g :
  (∀ url, fetch_or_parse_fails url) →
  main schedule1 schedule2 g = (inl (), g).
Proof.
  intros Hfail. unfold main, phase1.
  set (page_tasks := (λ page_num, async_scrape_page (base_url_format page_num))
                       <$> seq 1 max_pages_to_scrape).
  destruct (chunker_returns page_tasks batch_size ltac:(unfold batch_size; lia))
    as (batches & Hc & _).
  rewrite Hc.
  destruct (page_batches_keeps (λ g0, g0 = g) (λ _, False) batches schedule1 [])
    with (g := g) as (links & g1 & Hrun & -> & Hnone & _).
  { apply (chunker_Forall _ page_tasks batch_size); [|done].
    unfold page_tasks. apply Forall_fmap, Forall_forall. intros n _ g0 ->.
    exists [], g. split_and!; [by apply page_fails|done|constructor|done]. }
  { constructor. }
  { done. }
  destruct links as [|x links]; [|by apply Forall_cons in Hnone as [[] _]].
  change ((lift (inl batches) ≫= _) g) with (page_batches batches schedule1 [] g).
  rewrite (bind_inl _ _ _ _ _ Hrun). by vm_compute.
Qed.

Lemma total_failure_spec_witness :
  @main ascii_only offline [[0; 1; 2; 3; 4; 5; 6; 7; 8; 9]] [] initial_globals
    = (inl (), initial_globals).
Proof.
  apply (total_failure_spec (H := ascii_only) (H0 := offline)).
  intros url. exact I.
Defined.
